(** * lovepac: the texture packer's run loop ([packer/run.go])

    A shallow embedding of [packer.Run], [readAssetStream], [decode] and
    [Params.applySensibleDefaults], with the properties the specification
    states about them.

    Conventions.
    - Go's [int] is a 64-bit two's-complement integer, modelled in [Z]; the
      single arithmetic operation of the file ([totalNumberOfAtlases++]) is
      written with its wrap-around ([incr]).
    - Go's [float64] is IEEE binary64: Rocq's primitive [float].
    - Go's [error] values are compared by identity against the two sentinels
      of the [packing] package; every other error is known by its text.
    - Goroutine scheduling is made explicit: a function that depends on the
      order in which goroutines communicate takes that order as an argument
      (a schedule), and the theorems quantify over all schedules.
    - The loop of [Run] has no bound of its own; it is modelled with fuel,
      [None] meaning that the fuel ran out before the loop returned. *)

From Stdlib Require Import ZArith Lia Floats DecimalString DecimalPos DecimalZ
  Permutation Sorted.
From stdpp Require Import base option list strings gmap sorting.

Open Scope Z_scope.

(** ** Go values *)

Module Go.

(** 64-bit signed integers. *)
Definition min_int : Z := - 2 ^ 63.
Definition max_int : Z := 2 ^ 63 - 1.

Definition wrap (z : Z) : Z := (z + 2 ^ 63) mod 2 ^ 64 - 2 ^ 63.

Definition is_int (z : Z) : Prop := min_int <= z <= max_int.

(** [n++] *)
Definition incr (n : Z) : Z := wrap (n + 1).

(** [float64(n)] for an [int] [n]: rounding to nearest, ties to even. *)
Definition float64_of_int (n : Z) : float :=
  SF2Prim (binary_normalize prec emax n 0 false).

(** [int(f)] for a [float64] [f]: the fraction is discarded.  The Go
    specification leaves the result open when the value does not fit;
    amd64 yields the least integer, which is what is written here. *)
Definition int_of_float64 (f : float) : Z :=
  match Prim2SF f with
  | S754_zero _ => 0
  | S754_finite s m e =>
      let mag := if 0 <=? e then Z.pos m * 2 ^ e else Z.pos m / 2 ^ (- e) in
      let v := if s then - mag else mag in
      if (min_int <=? v) && (v <=? max_int) then v else min_int
  | S754_infinity _ | S754_nan => min_int
  end.

(** [fmt.Sprintf("%d", n)] *)
Definition itoa (n : Z) : string := NilZero.string_of_int (Z.to_int n).

(** The [error] interface, as far as the packer distinguishes its values:
    [packing.ErrInputTooLarge] and [packing.ErrOutOfRoom] are package
    variables compared with [==]; any other error is the text it prints. *)
Inductive error : Type :=
| ErrInputTooLarge
| ErrOutOfRoom
| errorString (msg : string).

#[global] Instance error_eq_dec : EqDecision error.
Proof. solve_decision. Defined.

(** [errors.New] *)
Definition errors_New (msg : string) : error := errorString msg.

End Go.

Import Go.

(** ** Collaborators of the [packer] package

    [Asset], [AssetStreamer], [Outputter], [target.Format], [sprite] and
    [atlas] are declared in files of the repository other than
    [packer/run.go]; they are modelled by what [run.go] does with them. *)

(** [image.Config], as far as [decode] reads it. *)
Record Config : Type := mkConfig { cfg_Width : Z; cfg_Height : Z }.

(** The [io.ReadCloser] an asset hands out, known by what
    [image.DecodeConfig] returns on it: the image header, or the text of
    the error. *)
Record ReadCloser : Type := mkReadCloser { image_DecodeConfig : string + Config }.

(** The [Asset] interface: [Asset()] is the identifier, [Reader()] the byte
    stream or the text of the error. *)
Record Asset : Type := mkAsset {
  Asset_id : string;
  Reader : string + ReadCloser
}.

(** The [AssetStreamer] interface: [AssetStream(ctx)] returns a channel of
    assets and a channel carrying one terminal error (or [nil]). *)
Record AssetStreamer : Type := mkAssetStreamer {
  stream_assets : list Asset;
  stream_err : option error
}.

(** Modelled from the spec: [target.Format] is not among the sources; a
    format pairs a file extension with a render template. *)
Record Format : Type := mkFormat { Template : option string; Ext : string }.

(** Modelled from the spec: [Format.IsValid] is not among the sources; a
    format is valid when its extension is non-empty and its template is
    present. *)
Definition IsValid (f : Format) : bool :=
  bool_decide (Ext f ≠ "") && bool_decide (Template f ≠ None).

(** The [sprite] struct ([w], [h] after scaling; [x], [y] the origin the
    packer assigns, zero until then). *)
Record sprite : Type := mkSprite {
  spr_Asset : Asset;
  path : string;
  w : Z;
  h : Z;
  padding : Z;
  x : Z;
  y : Z
}.

(** The [atlas] struct, as [Run] fills it in. *)
Record atlas : Type := mkAtlas {
  atlas_Name : string;
  Sprites : list sprite;
  DescFilename : string;
  ImageFilename : string;
  atlas_Width : Z;
  atlas_Height : Z;
  atlas_Scale : float
}.

(** What the three output methods of [atlas] return for a given sink.  The
    methods and the [Outputter] interface are not among the sources; [Run]
    only forwards their results, so the sink is modelled by those results. *)
Record Outputter : Type := mkOutputter {
  atlas_Output : atlas -> option string -> option error;
  atlas_OutputImage : atlas -> option string -> option error;
  atlas_OutputDesc : atlas -> bool -> option string -> option error
}.

(** ** Parameters and their defaults *)

Definition NameFormatter : Type := string -> Z -> string.

Definition DefaultAtlasName : string := "atlas".
Definition DefaultAtlasWidth : Z := 2048.
Definition DefaultAtlasHeight : Z := 2048.
Definition DefaultNameFormatter : NameFormatter :=
  fun name index => name +:+ "-" +:+ itoa index.

Record Params : Type := mkParams {
  Name : string;
  Input : option AssetStreamer;
  Output : option Outputter;
  Format_ : Format;
  Width : Z;
  Height : Z;
  Padding : Z;
  MaxAtlases : Z;
  Scale : float;
  CombineDescFiles : bool;
  NameFormatter_ : option NameFormatter
}.

(** Assignments to the fields of [*Params] that [applySensibleDefaults]
    writes. *)
Definition set_Name (v : string) (p : Params) : Params :=
  mkParams v (Input p) (Output p) (Format_ p) (Width p) (Height p) (Padding p)
    (MaxAtlases p) (Scale p) (CombineDescFiles p) (NameFormatter_ p).

Definition set_Width (v : Z) (p : Params) : Params :=
  mkParams (Name p) (Input p) (Output p) (Format_ p) v (Height p) (Padding p)
    (MaxAtlases p) (Scale p) (CombineDescFiles p) (NameFormatter_ p).

Definition set_Height (v : Z) (p : Params) : Params :=
  mkParams (Name p) (Input p) (Output p) (Format_ p) (Width p) v (Padding p)
    (MaxAtlases p) (Scale p) (CombineDescFiles p) (NameFormatter_ p).

Definition set_Scale (v : float) (p : Params) : Params :=
  mkParams (Name p) (Input p) (Output p) (Format_ p) (Width p) (Height p) (Padding p)
    (MaxAtlases p) v (CombineDescFiles p) (NameFormatter_ p).

Definition set_NameFormatter (v : option NameFormatter) (p : Params) : Params :=
  mkParams (Name p) (Input p) (Output p) (Format_ p) (Width p) (Height p) (Padding p)
    (MaxAtlases p) (Scale p) (CombineDescFiles p) v.

(** [applySensibleDefaults] updates the structure in place; here it returns
    the updated structure. *)
Definition applySensibleDefaults (p : Params) : Params :=
  let p := if bool_decide (Name p = "") then set_Name DefaultAtlasName p else p in
  let p := if Width p =? 0 then set_Width DefaultAtlasWidth p else p in
  let p := if Height p =? 0 then set_Height DefaultAtlasHeight p else p in
  let p := if PrimFloat.eqb (Scale p) 0%float then set_Scale 1%float p else p in
  let p := if NameFormatter_ p is None
           then set_NameFormatter (Some DefaultNameFormatter) p else p in
  p.

Definition validateRequiredParameters (p : Params) : option error :=
  if Input p is None then Some (errors_New "Input must not be nil")
  else if Output p is None then Some (errors_New "Output must not be nil")
  else None.

(** The naming function in force after the defaults have been applied. *)
Definition formatter (p : Params) : NameFormatter :=
  default DefaultNameFormatter (NameFormatter_ p).

(** ** The decode pipeline *)

Record assetDecodeResult : Type := mkResult {
  res_Sprite : option sprite;
  res_Err : option error
}.

(** [int(float64(n) * scale)] *)
Definition scaled (n : Z) (scale : float) : Z :=
  int_of_float64 (float64_of_int n * scale)%float.

(** The body of the loop of [decode]: what [publishResult] is called with
    for one asset received from the [in] channel. *)
Definition decode_body (padding : Z) (scale : float) (asset : Asset)
  : assetDecodeResult :=
  let assetPath := Asset_id asset in
  match Reader asset with
  | inl err =>
      mkResult None
        (Some (errorString ("Failed to read asset '" +:+ assetPath +:+ "': " +:+ err)))
  | inr assetReader =>
      match image_DecodeConfig assetReader with
      | inl err =>
          mkResult None
            (Some (errorString
                     ("Failed to read asset metadata '" +:+ assetPath +:+ "': " +:+ err)))
      | inr cfg =>
          let spr := {| spr_Asset := asset;
                        path := assetPath;
                        w := scaled (cfg_Width cfg) scale;
                        h := scaled (cfg_Height cfg) scale;
                        padding := padding;
                        x := 0;
                        y := 0 |} in
          mkResult (Some spr) None
      end
  end.

(** One decoder goroutine: [in_] is the sequence of assets this worker
    receives from the shared channel, the result the sequence of values it
    publishes.  Both error branches end in [continue]: the loop goes on
    with the next asset. *)
Fixpoint decode (padding : Z) (scale : float) (in_ : list Asset)
  : list assetDecodeResult :=
  match in_ with
  | [] => []
  | asset :: in_ => decode_body padding scale asset :: decode padding scale in_
  end.

Definition numDecoders : nat := 5.

(** The order in which the goroutines of [readAssetStream] communicate:
    [pulls] names, for each asset of the stream in turn, the decoder that
    receives it; [publishes] names the decoder whose next result the [out]
    channel delivers. *)
Record decode_schedule : Type := mkDecodeSchedule {
  pulls : list nat;
  publishes : list nat
}.

(** The assets each decoder receives. *)
Fixpoint distribute (pulls : list nat) (assets : list Asset)
  (queues : list (list Asset)) : list (list Asset) :=
  match pulls, assets with
  | k :: pulls, asset :: assets =>
      distribute pulls assets (alter (fun q => q ++ [asset]) k queues)
  | _, _ => queues
  end.

(** The values the consumer of a channel fed by several goroutines
    receives, and what the goroutines are left with. *)
Fixpoint fan_in {A : Type} (order : list nat) (queues : list (list A))
  : list A * list (list A) :=
  match order with
  | [] => ([], queues)
  | k :: order =>
      match queues !! k with
      | Some (v :: q) =>
          let '(vs, rest) := fan_in order (<[k := q]> queues) in (v :: vs, rest)
      | _ => fan_in order queues
      end
  end.

(** The loop [for res := range out] of [readAssetStream].  Every result
    [decode] publishes has a sprite or an error, so the last case always
    appends one sprite. *)
Fixpoint collect (out : list assetDecodeResult) (sprites : list sprite)
  : error + list sprite :=
  match out with
  | [] => inr sprites
  | res :: out =>
      match res_Err res with
      | Some err => inl err
      | None => collect out (sprites ++ option_list (res_Sprite res))
      end
  end.

Definition published (sched : decode_schedule) (assets : list Asset)
  (padding : Z) (scale : float) : list assetDecodeResult * list (list assetDecodeResult) :=
  let ins := distribute (pulls sched) assets (replicate numDecoders []) in
  fan_in (publishes sched) (map (decode padding scale) ins).

(** A schedule under which every asset is received by a decoder and every
    result is delivered: what happens, in some order, when the consumer
    meets no error and so cancels nothing. *)
Definition complete (sched : decode_schedule) (assets : list Asset)
  (padding : Z) (scale : float) : bool :=
  bool_decide (length (pulls sched) = length assets)
  && forallb (fun k => bool_decide (k < numDecoders)%nat) (pulls sched)
  && forallb (fun q => bool_decide (q = [])) (published sched assets padding scale).2.

Definition readAssetStream (sched : decode_schedule) (assetStream : AssetStreamer)
  (padding : Z) (scale : float) : error + list sprite :=
  let out := (published sched (stream_assets assetStream) padding scale).1 in
  match collect out [] with
  | inl err => inl err
  | inr sprites =>
      match stream_err assetStream with
      | Some err => inl err
      | None => inr sprites
      end
  end.

(** ** The [packing] package

    [packing.Block], [packing.ByArea] and [packing.BinPacker] are not among
    the sources.  The bin packer enters [Run] through its constructor and
    its [Pack] method only, so [Run] is embedded over any packer with these
    two operations; the order [ByArea] sorts by follows the spec. *)

(** [Pack] updates the packer and, on success, the block it is given (the
    block is a pointer to the sprite); it returns [nil] or an error. *)
Class BinPacker (P : Type) : Type := {
  NewBinPacker : Z -> Z -> P;
  Pack : P -> sprite -> P * sprite * option error
}.

(** Modelled from the spec: the bounding box of a sprite, which [ByArea]
    and the packer measure, is the sprite grown by its padding
    ([width+padding] by [height+padding]). *)
Definition Size (s : sprite) : Z * Z := (w s + padding s, h s + padding s).

(** Modelled from the spec: the area [ByArea] compares is that of the
    bounding box. *)
Definition area (s : sprite) : Z := (Size s).1 * (Size s).2.

(** Modelled from the spec: [ByArea] orders sprites by descending
    bounding-box area. *)
Definition ByArea_Less (a b : sprite) : bool := area b <? area a.

(** [sort.Sort] on a short slice is Go's [insertionSort]: element [i] moves
    left while it is [Less] than its left neighbour.  [rprefix] is the
    sorted prefix, last element first. *)
Fixpoint insert_back (s : sprite) (rprefix : list sprite) : list sprite :=
  match rprefix with
  | [] => [s]
  | t :: rprefix' =>
      if ByArea_Less s t then t :: insert_back s rprefix' else s :: rprefix
  end.

Definition sort_ByArea (sprites : list sprite) : list sprite :=
  rev (foldl (fun rprefix s => insert_back s rprefix) [] sprites).

Definition strictly_larger (a b : sprite) : Prop := area b < area a.

(** ** The pack loop of [Run] *)

(** A goroutine started by [Run], by what it sends on [errc]. *)
Inductive task : Type :=
| GoOutput (a : atlas)
| GoOutputImage (a : atlas)
| GoOutputDesc (descAtlases : list atlas).

(** How one pass over the sprites ends: with the [return] of the
    [ErrInputTooLarge] case, or with the two slices filled; in both cases
    [packer] is the packer as the last call to [Pack] left it. *)
Inductive pass_result (P : Type) : Type :=
| Aborted (packer : P)
| Packed (packer : P) (completedSprites incompleteSprites : list sprite).
Arguments Aborted {P} packer.
Arguments Packed {P} packer completedSprites incompleteSprites.

(** The variables of [Run] that change from one iteration to the next;
    [tasks] are the goroutines started so far, in the order they were
    started. *)
Record loop_state : Type := mkLoopState {
  sprites : list sprite;
  totalNumberOfAtlases : Z;
  tasks : list task;
  descAtlases : list atlas
}.

(** How the loop ends: with a [return] inside it, or with the [break]. *)
Inductive loop_exit : Type :=
| Return (err : error) (tasks : list task)
| Break (tasks : list task) (descAtlases : list atlas).

(** What a run leaves behind: the value it returns and the goroutines it
    has started. *)
Record outcome : Type := mkOutcome {
  returned : option error;
  started : list task
}.

(** The order of communication in one run: among the decoders, and among
    the output goroutines (the goroutine whose next value [errc] delivers). *)
Record run_schedule : Type := mkRunSchedule {
  decoding : decode_schedule;
  arrivals : list nat
}.

(** A context that is not cancelled from outside during the run. *)
Definition Context : Type := unit.

Definition too_many_atlases (params : Params) : error :=
  errorString ("Maximum number of atlases (" +:+ itoa (MaxAtlases params) +:+ ") exceeded").

(** The atlas built in one iteration, [index] being the value of
    [totalNumberOfAtlases] after its increment. *)
Definition new_atlas (params : Params) (index : Z) (completedSprites : list sprite)
  : atlas :=
  let atlasName := formatter params (Name params) index in
  let descName := formatter params (Name params) index in
  let descName := if CombineDescFiles params then Name params else descName in
  {| atlas_Name := atlasName;
     Sprites := completedSprites;
     DescFilename := descName +:+ "." +:+ Ext (Format_ params);
     ImageFilename := atlasName +:+ "." +:+ "png";
     atlas_Width := Width params;
     atlas_Height := Height params;
     atlas_Scale := Scale params |}.

(** The goroutine started for the atlas of one iteration. *)
Definition output_task (params : Params) (a : atlas) : task :=
  if CombineDescFiles params then GoOutputImage a else GoOutput a.

(** The calls [atlas.OutputDesc(params.Output, i > 0, ...)] of the combined
    descriptor goroutine, in order: each atlas with its append flag. *)
Definition desc_calls (descAtlases : list atlas) : list (atlas * bool) :=
  imap (fun i a => (a, bool_decide (0 < i)%nat)) descAtlases.

(** The values a goroutine sends on [errc], in order. *)
Definition sends (output : Outputter) (template : option string) (t : task)
  : list (option error) :=
  match t with
  | GoOutput a => [atlas_Output output a template]
  | GoOutputImage a => [atlas_OutputImage output a template]
  | GoOutputDesc descAtlases =>
      map (fun '(a, append) => atlas_OutputDesc output a append template)
        (desc_calls descAtlases)
  end.

(** [for err := range errc { if err != nil { return err } }; return nil] *)
Fixpoint first_error (received : list (option error)) : option error :=
  match received with
  | [] => None
  | Some err :: _ => Some err
  | None :: received => first_error received
  end.

Section PackLoop.

Context {P : Type} `{BinPacker P}.

(** [for _, sprite := range sprites { switch packer.Pack(sprite) ... }] *)
Fixpoint pack_pass (packer : P) (sprites completedSprites incompleteSprites : list sprite)
  : pass_result P :=
  match sprites with
  | [] => Packed packer completedSprites incompleteSprites
  | sprite :: sprites =>
      let '(packer, sprite, err) := Pack packer sprite in
      match err with
      | Some ErrInputTooLarge => Aborted packer
      | Some ErrOutOfRoom =>
          pack_pass packer sprites completedSprites (incompleteSprites ++ [sprite])
      | _ =>
          pack_pass packer sprites (completedSprites ++ [sprite]) incompleteSprites
      end
  end.

(** The same pass from the second iteration on, where [sprites] and
    [incompleteSprites] are two slices of one array ([sprites =
    incompleteSprites] at the end of the iteration before,
    [incompleteSprites = incompleteSprites[:0]] at the start of this one):
    [append] writes cell [j] of the array the loop is reading at cell [i].
    [todo] counts the cells still to read. *)
Fixpoint pack_pass_shared (todo : nat) (packer : P) (array : list sprite) (i : nat)
  (completedSprites : list sprite) (j : nat) : pass_result P :=
  match todo with
  | O => Packed packer completedSprites (take j array)
  | S todo =>
      match array !! i with
      | None => Packed packer completedSprites (take j array)
      | Some sprite =>
          let '(packer, sprite, err) := Pack packer sprite in
          match err with
          | Some ErrInputTooLarge => Aborted packer
          | Some ErrOutOfRoom =>
              pack_pass_shared todo packer (<[j := sprite]> array) (S i)
                completedSprites (S j)
          | _ =>
              pack_pass_shared todo packer array (S i) (completedSprites ++ [sprite]) j
          end
      end
  end.

(** One iteration of the [for] loop of [Run]: it leaves the loop or hands
    the next iteration its state. *)
Definition iteration (params : Params) (totalNumberOfSprites : nat) (st : loop_state)
  : loop_exit + loop_state :=
  if (0 <? MaxAtlases params) && (totalNumberOfAtlases st =? MaxAtlases params)
  then inl (Return (too_many_atlases params) (tasks st))
  else
    match pack_pass (NewBinPacker (Width params) (Height params)) (sprites st) [] [] with
    | Aborted _ => inl (Return ErrInputTooLarge (tasks st))
    | Packed _ completedSprites incompleteSprites =>
        let totalNumberOfAtlases := incr (totalNumberOfAtlases st) in
        let atlas := new_atlas params totalNumberOfAtlases completedSprites in
        let descAtlases :=
          if CombineDescFiles params then descAtlases st ++ [atlas] else descAtlases st in
        let tasks := tasks st ++ [output_task params atlas] in
        let totalNumberOfIncompletedSprites := length incompleteSprites in
        if (totalNumberOfIncompletedSprites =? 0)%nat
        then inl (Break tasks descAtlases)
        else if (totalNumberOfIncompletedSprites =? totalNumberOfSprites)%nat
        then inl (Return ErrOutOfRoom tasks)
        else inr (mkLoopState incompleteSprites totalNumberOfAtlases tasks descAtlases)
    end.

(** The [for] loop: [None] when [fuel] iterations have not left it. *)
Fixpoint pack_loop (fuel : nat) (params : Params) (totalNumberOfSprites : nat)
  (st : loop_state) : option loop_exit :=
  match fuel with
  | O => None
  | S fuel =>
      match iteration params totalNumberOfSprites st with
      | inl e => Some e
      | inr st => pack_loop fuel params totalNumberOfSprites st
      end
  end.

(** The state at the head of the loop once [k] iterations have run in
    full, if the loop has not been left before. *)
Fixpoint passes (k : nat) (params : Params) (totalNumberOfSprites : nat)
  (st : loop_state) : option loop_state :=
  match k with
  | O => Some st
  | S k =>
      match iteration params totalNumberOfSprites st with
      | inl _ => None
      | inr st => passes k params totalNumberOfSprites st
      end
  end.

(** [Run] from the sort on (lines 140 to 248): the loop, the combined
    descriptor goroutine, and the collection of the results.  [arrivals]
    is the order in which the goroutines deliver on [errc]; [Run] reads the
    channel until every goroutine is done or an error arrives, so the
    schedules of actual runs are those that drain every queue unless an
    error comes first. *)
Definition pack_and_output (arrivals : list nat) (fuel : nat) (params : Params)
  (output : Outputter) (sprites : list sprite) : option outcome :=
  let sprites := sort_ByArea sprites in
  let totalNumberOfSprites := length sprites in
  match pack_loop fuel params totalNumberOfSprites (mkLoopState sprites 0 [] []) with
  | None => None
  | Some (Return err tasks) => Some (mkOutcome (Some err) tasks)
  | Some (Break tasks descAtlases) =>
      let tasks :=
        if (0 <? length descAtlases)%nat
        then tasks ++ [GoOutputDesc descAtlases] else tasks in
      let template := Template (Format_ params) in
      let received := (fan_in arrivals (map (sends output template) tasks)).1 in
      Some (mkOutcome (first_error received) tasks)
  end.

(** ** [Run] *)

Definition Run (sched : run_schedule) (fuel : nat)
  (ctx : option Context) (params : option Params) : option outcome :=
  match ctx, params with
  | None, _ => Some (mkOutcome (Some (errors_New "Context must not be nil")) [])
  | Some _, None => Some (mkOutcome (Some (errors_New "Params must not be nil")) [])
  | Some _, Some params =>
      if negb (IsValid (Format_ params))
      then Some (mkOutcome (Some (errors_New "Invalid 'Format' parameter")) [])
      else
        match validateRequiredParameters params, Input params, Output params with
        | None, Some input, Some output =>
            let params := applySensibleDefaults params in
            match readAssetStream (decoding sched) input (Padding params) (Scale params) with
            | inl err => Some (mkOutcome (Some err) [])
            | inr sprites => pack_and_output (arrivals sched) fuel params output sprites
            end
        | Some err, _, _ => Some (mkOutcome (Some err) [])
        | None, _, _ =>
            (* not reached: [validateRequiredParameters] has excluded it *)
            Some (mkOutcome (Some (errors_New "nil pointer dereference")) [])
        end
  end.

End PackLoop.

(** ** A rectangle packer

    The theorems about [Run] hold for every packer; the one defined here
    serves to run [Run] on concrete inputs. *)

Module Guillotine.

Record rect : Type := mkRect { rx : Z; ry : Z; rw : Z; rh : Z }.

(** Modelled from the spec: [packing.BinPacker] is not among the sources;
    the canvas is kept as a partition of its free space into rectangles. *)
Record canvas : Type := mkCanvas {
  canvas_w : Z;
  canvas_h : Z;
  free : list rect
}.

Definition rect_area (r : rect) : Z := rw r * rh r.

Definition fits (bw bh : Z) (r : rect) : bool := (bw <=? rw r) && (bh <=? rh r).

(** Modelled from the spec: the free rectangle chosen for a box is the
    smallest one that holds it, the first one met among equals. *)
Fixpoint best_fit (bw bh : Z) (regions : list rect) (i : nat)
  (best : option (nat * rect)) : option (nat * rect) :=
  match regions with
  | [] => best
  | r :: regions =>
      let best :=
        if fits bw bh r then
          match best with
          | Some (_, b) => if rect_area r <? rect_area b then Some (i, r) else best
          | None => Some (i, r)
          end
        else best in
      best_fit bw bh regions (S i) best
  end.

(** Modelled from the spec: the chosen rectangle is replaced by the free
    space to the right of the box and the free space below it, when there
    is any. *)
Definition split (r : rect) (bw bh : Z) : list rect :=
  filter (fun r => 0 < rw r /\ 0 < rh r)
    [ mkRect (rx r + bw) (ry r) (rw r - bw) bh;
      mkRect (rx r) (ry r + bh) (rw r) (rh r - bh) ].

Definition place (s : sprite) (px py : Z) : sprite :=
  {| spr_Asset := spr_Asset s; path := path s; w := w s; h := h s;
     padding := padding s; x := px; y := py |}.

(** Modelled from the spec: [BinPacker.Pack] signals [ErrInputTooLarge]
    when the sprite without its padding exceeds the canvas, signals
    [ErrOutOfRoom] when no free rectangle holds its padded bounding box,
    and otherwise places the sprite at the corner of the rectangle chosen. *)
Definition pack (c : canvas) (s : sprite) : canvas * sprite * option error :=
  if (canvas_w c <? w s) || (canvas_h c <? h s)
  then (c, s, Some ErrInputTooLarge)
  else
    let '(bw, bh) := Size s in
    match best_fit bw bh (free c) 0 None with
    | None => (c, s, Some ErrOutOfRoom)
    | Some (i, r) =>
        (mkCanvas (canvas_w c) (canvas_h c)
           (take i (free c) ++ split r bw bh ++ drop (S i) (free c)),
         place s (rx r) (ry r),
         None)
    end.

#[global] Instance packer : BinPacker canvas := {
  NewBinPacker width height := mkCanvas width height [mkRect 0 0 width height];
  Pack := pack
}.

End Guillotine.

(** ** Descriptor files *)

(** Modelled from the spec: [atlas.OutputDesc] and the sink behind
    [Outputter] are not among the sources.  The sink keeps, for each file
    name, the entries written to it, one entry per sprite; a write in
    create mode replaces the file, a write in append mode adds to it. *)
Definition OutputDesc (a : atlas) (append : bool) (files : gmap string (list sprite))
  : gmap string (list sprite) :=
  if append
  then <[DescFilename a := default [] (files !! DescFilename a) ++ Sprites a]> files
  else <[DescFilename a := Sprites a]> files.

(** The combined descriptor goroutine, run to its end on such a sink. *)
Definition write_descs (descAtlases : list atlas) (files : gmap string (list sprite))
  : gmap string (list sprite) :=
  foldl (fun files '(a, append) => OutputDesc a append files) files
    (desc_calls descAtlases).

(** ** Notions the properties are stated with *)

(** The image header of an asset, when its reader opens and
    [image.DecodeConfig] succeeds on it. *)
Definition header (a : Asset) : option Config :=
  match Reader a with
  | inr r => match image_DecodeConfig r with inr cfg => Some cfg | inl _ => None end
  | inl _ => None
  end.

(** An error of [decode] about the asset [a]: one of its two messages, with
    the identifier of [a] in it. *)
Definition decode_error (a : Asset) (err : error) : Prop :=
  (exists msg, err = errorString ("Failed to read asset '" +:+ Asset_id a +:+ "': " +:+ msg)) \/
  (exists msg,
     err = errorString ("Failed to read asset metadata '" +:+ Asset_id a +:+ "': " +:+ msg)).


(** The file names of the atlas with the given index. *)
Definition named (params : Params) (index : Z) (a : atlas) : Prop :=
  let stem := formatter params (Name params) index in
  ImageFilename a = stem +:+ ".png" /\
  DescFilename a =
    (if CombineDescFiles params then Name params else stem) +:+ "." +:+ Ext (Format_ params).

(** Invariants of the loop: the goroutine started in iteration [i + 1] is
    the one for the atlas of index [i + 1]; [descAtlases] holds the atlases
    of the goroutines when descriptors are combined, and nothing
    otherwise; the counter is the number of goroutines started. *)
Definition names_ok (params : Params) (ts : list task) : Prop :=
  forall i t, ts !! i = Some t ->
    exists completed,
      t = output_task params (new_atlas params (wrap (Z.of_nat i + 1)) completed).

Definition descs_ok (params : Params) (ts : list task) (da : list atlas) : Prop :=
  if CombineDescFiles params then ts = map GoOutputImage da else da = [].

Definition inv (params : Params) (st : loop_state) : Prop :=
  totalNumberOfAtlases st = wrap (Z.of_nat (length (tasks st))) /\
  names_ok params (tasks st) /\
  descs_ok params (tasks st) (descAtlases st).

Definition exit_ok (params : Params) (e : loop_exit) : Prop :=
  match e with
  | Return _ ts => names_ok params ts
  | Break ts da => names_ok params ts /\ descs_ok params ts da /\ ts <> []
  end.

(** ** Notions the further properties are stated with *)

(** The sprites of the atlas an output goroutine was started for. *)
Definition task_sprites (t : task) : list sprite :=
  match t with
  | GoOutput a | GoOutputImage a => Sprites a
  | GoOutputDesc _ => []
  end.

(** The sprites of all atlases started so far, in the order placed. *)
Definition placed (ts : list task) : list sprite := concat (map task_sprites ts).

(** An order of arrival that lets every output goroutine deliver all it
    sends. *)
Definition drained (arrivals : list nat) (queues : list (list (option error))) : bool :=
  forallb (fun q => bool_decide (q = [])) (fan_in arrivals queues).2.

Section PassTrace.

Context {P : Type} `{BinPacker P}.

(** The calls to [Pack] of one pass, in order: each sprite as the call left
    it, with the answer.  The pass ends with the first [ErrInputTooLarge]. *)
Fixpoint pack_trace (packer : P) (sprites : list sprite) : list (sprite * option error) :=
  match sprites with
  | [] => []
  | sprite :: sprites =>
      let '(packer, sprite, err) := Pack packer sprite in
      (sprite, err) ::
        (if bool_decide (err = Some ErrInputTooLarge) then []
         else pack_trace packer sprites)
  end.

End PassTrace.

(** The goroutine [t] writes the image of atlas [a]. *)
Definition carries (t : task) (a : atlas) : Prop :=
  t = GoOutput a \/ t = GoOutputImage a.

(** The sprites still to pack and the sprites of each goroutine's atlas
    follow one another as in [l0], up to what [f] tells apart. *)
Definition in_order_of {A : Type} (f : sprite -> A) (l0 : list A)
  (sprites : list sprite) (ts : list task) : Prop :=
  map f sprites `sublist_of` l0 /\
  Forall (fun t => map f (task_sprites t) `sublist_of` l0) ts.

(** ** Inputs used in the examples *)

Module Fixtures.

(** An asset whose reader opens and whose header gives the dimensions. *)
Definition png (id : string) (width height : Z) : Asset :=
  mkAsset id (inr (mkReadCloser (inr (mkConfig width height)))).

(** A sink on which every write succeeds. *)
Definition recorder : Outputter :=
  mkOutputter (fun _ _ => None) (fun _ _ => None) (fun _ _ _ => None).

Definition FormatLove : Format := mkFormat (Some "love") "lua".

(** One decoder receives every asset and publishes in the order of the
    stream; the output goroutines (eight at most) deliver one after the
    other, in the order they were started. *)
Definition in_order (assets : nat) : run_schedule :=
  mkRunSchedule (mkDecodeSchedule (replicate assets 0%nat) (replicate assets 0%nat))
    (flat_map (fun k => replicate 8 k) (seq 0 8)).

Definition source (assets : list Asset) : option AssetStreamer :=
  Some (mkAssetStreamer assets None).

(** Every optional field left at its zero value. *)
Definition unset (assets : list Asset) : Params :=
  mkParams "" (source assets) (Some recorder) FormatLove 0 0 0 0 0%float false None.

(** A 10 by 10 canvas. *)
Definition small_canvas (assets : list Asset) (padding maxAtlases : Z) (combine : bool)
  : Params :=
  mkParams "" (source assets) (Some recorder) FormatLove 10 10 padding maxAtlases
    0%float combine None.

(** The sprites [decode] makes of a list of assets. *)
Definition decoded (padding : Z) (scale : float) (assets : list Asset) : list sprite :=
  omap res_Sprite (decode padding scale assets).

(** With a padding of 1 the first asset fills the canvas and its bounding
    box exceeds it; the second fits. *)
Definition too_wide : list Asset := [png "big" 10 10; png "small" 2 2].
Definition big : sprite := mkSprite (png "big" 10 10) "big" 10 10 1 0 0.

(** Two assets of one size, in both orders. *)
Definition twins : list Asset := [png "a" 2 2; png "b" 2 2].

(** Two assets that need an atlas each, in both orders. *)
Definition two_sizes : list Asset := [png "b" 7 7; png "a" 8 8].

Definition dot : list Asset := [png "dot" 1 1].

(** A source that yields one asset and then reports a failure. *)
Definition failed_listing : AssetStreamer :=
  mkAssetStreamer [png "button.png" 4 4]
    (Some (errorString "open fixtures: no such directory")).

(** The first asset is larger than the canvas. *)
Definition oversized : list Asset := [png "poster" 11 11; png "small" 2 2].

Definition packed (maxAtlases : Z) (combine : bool) : Params :=
  applySensibleDefaults (small_canvas two_sizes 0 maxAtlases combine).

End Fixtures.

Import Fixtures.

(** * Properties *)

(** ** Integers and defaults *)

Lemma wrap_small (z : Z) : is_int z -> wrap z = z.
Proof.
  unfold is_int, wrap, min_int, max_int. intros Hz.
  rewrite Z.mod_small; lia.
Qed.

Lemma incr_small (n : Z) : 0 <= n < max_int -> incr n = n + 1.
Proof.
  intros Hn. unfold incr. apply wrap_small.
  unfold is_int, min_int, max_int in *. lia.
Qed.

Lemma incr_wrap (z : Z) : incr (wrap z) = wrap (z + 1).
Proof.
  unfold incr, wrap.
  replace ((z + 2 ^ 63) mod 2 ^ 64 - 2 ^ 63 + 1 + 2 ^ 63)
    with ((z + 2 ^ 63) mod 2 ^ 64 + 1) by lia.
  rewrite Zplus_mod_idemp_l. do 2 f_equal. lia.
Qed.

Lemma applySensibleDefaults_fields (p : Params) :
  applySensibleDefaults p =
  mkParams (if bool_decide (Name p = "") then DefaultAtlasName else Name p)
    (Input p) (Output p) (Format_ p)
    (if Width p =? 0 then DefaultAtlasWidth else Width p)
    (if Height p =? 0 then DefaultAtlasHeight else Height p)
    (Padding p) (MaxAtlases p)
    (if PrimFloat.eqb (Scale p) 0 then 1%float else Scale p)
    (CombineDescFiles p)
    (Some (default DefaultNameFormatter (NameFormatter_ p))).
Proof.
  destruct p as [nm i o f wd ht pad mx sc cb nf].
  unfold applySensibleDefaults.
  cbv [Name]. destruct (bool_decide (nm = ""));
    cbv [set_Name Name Input Output Format_ Width Height Padding MaxAtlases Scale
           CombineDescFiles NameFormatter_];
  (destruct (wd =? 0);
    cbv [set_Width Name Input Output Format_ Width Height Padding MaxAtlases Scale
           CombineDescFiles NameFormatter_];
   (destruct (ht =? 0);
     cbv [set_Height Name Input Output Format_ Width Height Padding MaxAtlases Scale
            CombineDescFiles NameFormatter_];
    (destruct (PrimFloat.eqb sc 0);
      cbv [set_Scale Name Input Output Format_ Width Height Padding MaxAtlases Scale
             CombineDescFiles NameFormatter_];
     (destruct nf; reflexivity)))).
Qed.

Lemma applySensibleDefaults_idem (p : Params) :
  applySensibleDefaults (applySensibleDefaults p) = applySensibleDefaults p.
Proof.
  rewrite (applySensibleDefaults_fields p).
  rewrite applySensibleDefaults_fields. cbn [Name Width Height Scale NameFormatter_
    Input Output Format_ Padding MaxAtlases CombineDescFiles].
  f_equal.
  - destruct (bool_decide (Name p = "")) eqn:E; [done|by rewrite E].
  - destruct (Width p =? 0) eqn:E; [done|by rewrite E].
  - destruct (Height p =? 0) eqn:E; [done|by rewrite E].
  - destruct (PrimFloat.eqb (Scale p) 0) eqn:E; [done|by rewrite E].
Qed.

(** ** The decode pipeline *)

Lemma decode_map padding scale in_ :
  decode padding scale in_ = map (decode_body padding scale) in_.
Proof. induction in_ as [|a in_ IH]; simpl; congruence. Qed.

Lemma decode_app padding scale in1 in2 :
  decode padding scale (in1 ++ in2) = decode padding scale in1 ++ decode padding scale in2.
Proof. rewrite !decode_map. apply map_app. Qed.

Lemma concat_insert_head {A} (queues : list (list A)) k v q :
  queues !! k = Some (v :: q) ->
  concat queues ≡ₚ v :: concat (<[k := q]> queues).
Proof.
  revert k. induction queues as [|q0 queues IH]; intros [|k] Hk; simplify_eq/=.
  - done.
  - rewrite (IH _ Hk). by rewrite Permutation_middle.
Qed.

Lemma fan_in_perm {A} (order : list nat) (queues : list (list A)) :
  concat queues ≡ₚ (fan_in order queues).1 ++ concat (fan_in order queues).2.
Proof.
  revert queues. induction order as [|k order IH]; intros queues; simpl; [done|].
  destruct (queues !! k) as [[|v q]|] eqn:Hk; try apply IH.
  specialize (IH (<[k := q]> queues)).
  destruct (fan_in order (<[k := q]> queues)) as [vs rest]; simpl in *.
  rewrite (concat_insert_head _ _ _ _ Hk). by rewrite IH.
Qed.

Lemma concat_alter_snoc {A} (queues : list (list A)) k a :
  (k < length queues)%nat ->
  concat (alter (fun q => q ++ [a]) k queues) ≡ₚ a :: concat queues.
Proof.
  revert k. induction queues as [|q0 queues IH]; intros [|k] Hk; simpl in *; try lia.
  - rewrite <- app_assoc. simpl. by rewrite <- Permutation_middle.
  - change (list_alter ?f k queues) with (alter f k queues).
    rewrite IH by lia. by rewrite Permutation_middle.
Qed.

Lemma distribute_perm (pulls : list nat) (assets : list Asset) queues :
  length pulls = length assets ->
  Forall (fun k => (k < length queues)%nat) pulls ->
  concat (distribute pulls assets queues) ≡ₚ concat queues ++ assets.
Proof.
  revert assets queues. induction pulls as [|k pulls IH]; intros [|a assets] queues Hl Hk;
    simplify_eq/=.
  - by rewrite app_nil_r.
  - inversion Hk as [|? ? Hk1 Hk2]; subst.
    rewrite IH; [|done|by rewrite length_alter].
    rewrite concat_alter_snoc by done. by rewrite <- Permutation_middle.
Qed.

Lemma concat_alter_elem_of {A} (queues : list (list A)) k a b :
  b ∈ concat (alter (fun q => q ++ [a]) k queues) -> b = a \/ b ∈ concat queues.
Proof.
  revert k. induction queues as [|q0 queues IH]; intros [|k]; simpl; auto.
  - rewrite !elem_of_app, list_elem_of_singleton. tauto.
  - change (list_alter ?f k queues) with (alter f k queues).
    rewrite !elem_of_app. intros [?|Hb]; [tauto|]. apply IH in Hb. tauto.
Qed.

Lemma distribute_elem_of (pulls : list nat) (assets : list Asset) queues a :
  a ∈ concat (distribute pulls assets queues) -> a ∈ concat queues \/ a ∈ assets.
Proof.
  revert assets queues. induction pulls as [|k pulls IH]; intros [|b assets] queues Ha;
    simpl in *; auto.
  apply IH in Ha as [Ha|Ha]; [|right; by right].
  apply concat_alter_elem_of in Ha as [->|Ha]; [right; left|by left].
Qed.

Lemma collect_inr out acc sprites :
  collect out acc = inr sprites ->
  Forall (fun r => res_Err r = None) out /\ sprites = acc ++ omap res_Sprite out.
Proof.
  revert acc. induction out as [|r out IH]; intros acc Hc; simpl in *.
  - simplify_eq. by rewrite app_nil_r.
  - destruct (res_Err r) eqn:Er; [done|].
    apply IH in Hc as [Hout ->]. split; [by constructor|].
    rewrite <- app_assoc. by destruct (res_Sprite r).
Qed.

Lemma collect_inl out acc err :
  collect out acc = inl err ->
  exists pre r post, out = pre ++ r :: post /\
    Forall (fun r => res_Err r = None) pre /\ res_Err r = Some err.
Proof.
  revert acc. induction out as [|r out IH]; intros acc Hc; simpl in *; [done|].
  destruct (res_Err r) eqn:Er.
  - simplify_eq. by exists [], r, out.
  - apply IH in Hc as (pre & r' & post & -> & Hpre & Hr').
    exists (r :: pre), r', post. split_and!; [done|by constructor|done].
Qed.

Lemma collect_no_error out acc :
  Forall (fun r => res_Err r = None) out -> exists sprites, collect out acc = inr sprites.
Proof.
  intros Hout. revert acc. induction Hout as [|r out Hr _ IH]; intros acc; simpl; [eauto|].
  rewrite Hr. apply IH.
Qed.

Lemma published_elem_of sched assets padding scale r :
  r ∈ (published sched assets padding scale).1 ->
  exists a, a ∈ assets /\ r = decode_body padding scale a.
Proof.
  unfold published. intros Hr.
  assert (r ∈ concat (map (decode padding scale)
            (distribute (pulls sched) assets (replicate numDecoders [])))) as Hin.
  { rewrite (fan_in_perm (publishes sched)). apply elem_of_app. by left. }
  apply list_elem_of_In, in_concat in Hin as (q & Hq & Hrq).
  apply in_map_iff in Hq as (ins & <- & Hins).
  rewrite decode_map in Hrq. apply in_map_iff in Hrq as (a & <- & Ha).
  exists a. split; [|done].
  assert (a ∈ concat (distribute (pulls sched) assets (replicate numDecoders []))) as Hc.
  { apply list_elem_of_In, in_concat. eauto. }
  apply distribute_elem_of in Hc as [Hc|Hc]; [|done].
  exfalso. vm_compute in Hc. by repeat (apply elem_of_nil in Hc || inversion Hc).
Qed.

Lemma concat_all_nil {A} (qs : list (list A)) :
  (forall q, In q qs -> q = []) -> concat qs = [].
Proof.
  induction qs as [|q qs IH]; intros Hq; simpl; [done|].
  rewrite (Hq q) by (by left). apply IH. intros; apply Hq; by right.
Qed.

Lemma published_perm sched assets padding scale :
  complete sched assets padding scale = true ->
  (published sched assets padding scale).1 ≡ₚ map (decode_body padding scale) assets.
Proof.
  unfold complete. rewrite !andb_true_iff, !bool_decide_eq_true, !forallb_forall.
  intros [[Hlen Hk] Hrest]. unfold published in *.
  set (ins := distribute (pulls sched) assets (replicate numDecoders [])) in *.
  pose proof (fan_in_perm (publishes sched) (map (decode padding scale) ins)) as Hp.
  assert (concat (fan_in (publishes sched) (map (decode padding scale) ins)).2 = []) as Hnil.
  { apply concat_all_nil. intros q Hq. apply Hrest, bool_decide_eq_true in Hq. done. }
  rewrite Hnil, app_nil_r in Hp. rewrite <- Hp.
  assert (concat (map (decode padding scale) ins) = map (decode_body padding scale) (concat ins))
    as ->.
  { rewrite concat_map. f_equal. apply map_ext. intros. apply decode_map. }
  apply Permutation_map. subst ins. rewrite distribute_perm; [done|done|].
  apply Forall_forall. intros k Hin. apply list_elem_of_In, Hk in Hin.
  rewrite bool_decide_eq_true in Hin. by rewrite length_replicate.
Qed.

(** ** The canonical order *)

Section Sorting.


Lemma insert_back_perm s rprefix : insert_back s rprefix ≡ₚ s :: rprefix.
Proof.
  induction rprefix as [|t rp IH]; simpl; [done|].
  destruct (ByArea_Less s t); [|done]. rewrite IH. apply perm_swap.
Qed.


Lemma foldl_insert_back_perm sprites rprefix :
  foldl (fun rp s => insert_back s rp) rprefix sprites ≡ₚ sprites ++ rprefix.
Proof.
  revert rprefix. induction sprites as [|s l IH]; intros rp; simpl; [done|].
  rewrite IH, insert_back_perm. by rewrite Permutation_middle.
Qed.


Lemma sort_ByArea_perm sprites : sort_ByArea sprites ≡ₚ sprites.
Proof.
  unfold sort_ByArea. rewrite <- Permutation_rev, foldl_insert_back_perm.
  by rewrite app_nil_r.
Qed.




#[local] Instance strictly_larger_antisymm : AntiSymm eq strictly_larger.
Proof. intros a b. unfold strictly_larger. lia. Qed.



End Sorting.

(** ** The pack loop *)

Section LoopFacts.

Context {P : Type} `{BinPacker P}.

(** *** One pass *)

Lemma pack_pass_length packer l c i packer' c' i' :
  pack_pass packer l c i = Packed packer' c' i' ->
  (length c' + length i' = length c + length i + length l)%nat.
Proof.
  revert packer c i. induction l as [|s l IH]; intros packer c i Hp; simpl in Hp.
  - simplify_eq. simpl. lia.
  - destruct (Pack packer s) as [[pk s'] [[| |msg]|]]; try done;
      apply IH in Hp; rewrite ?length_app in Hp; simpl in *; lia.
Qed.

Lemma pack_pass_app packer pre rest c i packer1 c1 i1 :
  pack_pass packer pre c i = Packed packer1 c1 i1 ->
  pack_pass packer (pre ++ rest) c i = pack_pass packer1 rest c1 i1.
Proof.
  revert packer c i. induction pre as [|s pre IH]; intros packer c i Hp; simpl in *.
  - by simplify_eq.
  - destruct (Pack packer s) as [[pk s'] [[| |msg]|]]; try done; by apply IH.
Qed.

(** Writing the deferred sprites into the array that is being read does no
    harm: the cell written is never ahead of the cell read, so the pass
    over the shared array is the pass over the list of its cells. *)
Lemma pack_pass_shared_correct todo packer array i completed j :
  (j <= i)%nat ->
  pack_pass_shared todo packer array i completed j
  = pack_pass packer (take todo (drop i array)) completed (take j array).
Proof.
  revert packer array i completed j.
  induction todo as [|todo IH]; intros packer array i completed j Hji; simpl.
  - done.
  - destruct (array !! i) as [s|] eqn:Hi.
    + rewrite (drop_S _ _ _ Hi). simpl.
      destruct (Pack packer s) as [[pk s'] [[| |msg]|]]; try done.
      * rewrite IH by lia.
        rewrite drop_insert_lt by lia.
        assert (j < length array)%nat by (apply lookup_lt_Some in Hi; lia).
        f_equal. erewrite take_S_r by (by apply list_lookup_insert_eq).
        by rewrite take_insert_ge by lia.
      * by rewrite IH by lia.
      * by rewrite IH by lia.
    + apply lookup_ge_None in Hi. by rewrite drop_ge by lia.
Qed.

(** *** The loop *)

Lemma pack_loop_more fuel fuel' params total st e :
  pack_loop fuel params total st = Some e -> (fuel <= fuel')%nat ->
  pack_loop fuel' params total st = Some e.
Proof.
  revert fuel' st. induction fuel as [|fuel IH]; intros [|fuel'] st He Hle; simpl in *;
    try done; try lia.
  destruct (iteration params total st); [done|]. apply IH; [done|lia].
Qed.

Lemma pack_loop_deterministic fuel fuel' params total st e e' :
  pack_loop fuel params total st = Some e ->
  pack_loop fuel' params total st = Some e' -> e = e'.
Proof.
  intros He He'.
  apply (pack_loop_more _ (fuel + fuel')) in He; [|lia].
  apply (pack_loop_more _ (fuel + fuel')) in He'; [|lia]. congruence.
Qed.

Lemma passes_pack_loop k fuel params total st st' :
  passes k params total st = Some st' ->
  pack_loop (k + fuel) params total st = pack_loop fuel params total st'.
Proof.
  revert st. induction k as [|k IH]; intros st Hk; simpl in *; [by simplify_eq|].
  destruct (iteration params total st); [done|]. by apply IH.
Qed.

Lemma pack_loop_passes fuel params total st e :
  pack_loop fuel params total st = Some e ->
  exists k st', (k < fuel)%nat /\ passes k params total st = Some st' /\
    iteration params total st' = inl e.
Proof.
  revert st. induction fuel as [|fuel IH]; intros st He; simpl in *; [done|].
  destruct (iteration params total st) as [e'|st1] eqn:Hit.
  - simplify_eq. exists 0%nat, st. split_and!; [lia|done|done].
  - apply IH in He as (k & st' & Hk & Hp & Hi).
    exists (S k), st'. split_and!; [lia| |done]. simpl. by rewrite Hit.
Qed.

Lemma passes_None_pack_loop k params total st :
  passes k params total st = None -> exists e, pack_loop k params total st = Some e.
Proof.
  revert st. induction k as [|k IH]; intros st Hk; simpl in *; [done|].
  destruct (iteration params total st); eauto.
Qed.

Lemma passes_S k params total st st' :
  passes (S k) params total st = Some st' ->
  exists st1, passes k params total st = Some st1 /\ iteration params total st1 = inr st'.
Proof.
  revert st. induction k as [|k IH]; intros st Hk.
  - simpl in Hk. destruct (iteration params total st) eqn:Hit; [done|].
    simplify_eq. by exists st.
  - change (passes (S (S k)) params total st) with
      (match iteration params total st with
       | inl _ => None | inr st => passes (S k) params total st end) in Hk.
    destruct (iteration params total st) as [|st0] eqn:Hit; [done|].
    apply IH in Hk as (st1 & Hp & Hi). exists st1. split; [|done].
    simpl. by rewrite Hit.
Qed.

Lemma passes_le k j params total st st' :
  passes k params total st = Some st' -> (j <= k)%nat ->
  is_Some (passes j params total st).
Proof.
  revert st'. induction k as [|k IH]; intros st' Hk Hj.
  - replace j with 0%nat by lia. by eexists.
  - destruct (decide (j = S k)) as [->|Hne]; [by eexists|].
    apply passes_S in Hk as (st1 & Hk1 & _). apply (IH st1); [done|lia].
Qed.

End LoopFacts.

Section LoopInvariants.

Context {P : Type} `{BinPacker P}.

(** What one iteration does with the state, once the limit check has let
    it through and the pass has not been aborted. *)
Lemma iteration_packed params total st packer completed incomplete :
  (0 <? MaxAtlases params) && (totalNumberOfAtlases st =? MaxAtlases params) = false ->
  pack_pass (NewBinPacker (Width params) (Height params)) (sprites st) [] []
    = Packed packer completed incomplete ->
  let index := incr (totalNumberOfAtlases st) in
  let a := new_atlas params index completed in
  let ts := tasks st ++ [output_task params a] in
  let da := if CombineDescFiles params then descAtlases st ++ [a] else descAtlases st in
  iteration params total st =
    if (length incomplete =? 0)%nat then inl (Break ts da)
    else if (length incomplete =? total)%nat then inl (Return ErrOutOfRoom ts)
    else inr (mkLoopState incomplete index ts da).
Proof. intros Hlim Hpass. unfold iteration. by rewrite Hlim, Hpass. Qed.

Lemma iteration_cases params total st :
  (exists ts, iteration params total st = inl (Return (too_many_atlases params) ts) /\
     ts = tasks st /\
     (0 <? MaxAtlases params) && (totalNumberOfAtlases st =? MaxAtlases params) = true) \/
  ((0 <? MaxAtlases params) && (totalNumberOfAtlases st =? MaxAtlases params) = false /\
   ((exists packer,
       pack_pass (NewBinPacker (Width params) (Height params)) (sprites st) [] []
         = Aborted packer /\
       iteration params total st = inl (Return ErrInputTooLarge (tasks st))) \/
    (exists packer completed incomplete,
       pack_pass (NewBinPacker (Width params) (Height params)) (sprites st) [] []
         = Packed packer completed incomplete))).
Proof.
  unfold iteration.
  destruct ((0 <? MaxAtlases params) && (totalNumberOfAtlases st =? MaxAtlases params));
    [left; eauto|right; split; [done|]].
  destruct (pack_pass _ _ _ _) as [pk|pk c i]; [left|right]; eauto.
Qed.

(** The sprite list never grows from one iteration to the next. *)
Lemma iteration_sprites params total st st' :
  iteration params total st = inr st' ->
  (length (sprites st') <= length (sprites st))%nat.
Proof.
  intros Hit.
  destruct (iteration_cases params total st) as
    [(ts & Hr & _)|[Hlim [(pk & _ & Hr)|(pk & c & i & Hp)]]]; try congruence.
  rewrite (iteration_packed _ _ _ _ _ _ Hlim Hp) in Hit.
  apply pack_pass_length in Hp. simpl in Hp.
  destruct (length i =? 0)%nat; [done|].
  destruct (length i =? total)%nat; [done|].
  simplify_eq. simpl. lia.
Qed.

(** *** Names and order of the goroutines started *)

Lemma inv_init params sprites0 : inv params (mkLoopState sprites0 0 [] []).
Proof.
  split_and!; simpl.
  - done.
  - intros i t Hi. by rewrite lookup_nil in Hi.
  - unfold descs_ok. by destruct (CombineDescFiles params).
Qed.

Lemma names_ok_snoc params ts completed :
  names_ok params ts ->
  names_ok params
    (ts ++ [output_task params
              (new_atlas params (incr (wrap (Z.of_nat (length ts)))) completed)]).
Proof.
  intros Hts i t Hi. apply lookup_app_Some in Hi as [Hi|[Hlen Hi]]; [by apply Hts|].
  apply list_lookup_singleton_Some in Hi as [Hi <-].
  exists completed. rewrite incr_wrap. do 3 f_equal. lia.
Qed.

Lemma descs_ok_snoc params ts da a :
  descs_ok params ts da ->
  descs_ok params (ts ++ [output_task params a])
    (if CombineDescFiles params then da ++ [a] else da).
Proof.
  unfold descs_ok, output_task. destruct (CombineDescFiles params); [|done].
  intros ->. by rewrite map_app.
Qed.

Lemma iteration_inv params total st :
  inv params st ->
  match iteration params total st with
  | inl e => exit_ok params e
  | inr st' => inv params st'
  end.
Proof.
  intros (Hc & Hn & Hd).
  destruct (iteration_cases params total st) as
    [(ts & -> & -> & _)|[Hlim [(pk & _ & ->)|(pk & c & i & Hp)]]]; try done.
  rewrite (iteration_packed _ _ _ _ _ _ Hlim Hp). rewrite Hc.
  pose proof (names_ok_snoc params (tasks st) c Hn) as Hn'.
  pose proof (descs_ok_snoc params (tasks st) (descAtlases st)
                (new_atlas params (incr (wrap (Z.of_nat (length (tasks st))))) c) Hd) as Hd'.
  destruct (length i =? 0)%nat; [|destruct (length i =? total)%nat]; simpl.
  - split_and!; [done|done|]. intros Habs. by apply app_eq_nil in Habs as [_ ?].
  - done.
  - split_and!; [|done|done]. simpl.
    rewrite length_app, incr_wrap. simpl. f_equal. lia.
Qed.

Lemma passes_inv k params total st st' :
  inv params st -> passes k params total st = Some st' -> inv params st'.
Proof.
  revert st. induction k as [|k IH]; intros st Hinv Hk; simpl in Hk; [by simplify_eq|].
  pose proof (iteration_inv params total st Hinv) as Hit.
  destruct (iteration params total st); [done|]. by eapply IH.
Qed.

Lemma pack_loop_inv fuel params total st e :
  inv params st -> pack_loop fuel params total st = Some e -> exit_ok params e.
Proof.
  intros Hinv He. apply pack_loop_passes in He as (k & st' & _ & Hk & Hit).
  pose proof (iteration_inv params total st' (passes_inv _ _ _ _ _ Hinv Hk)) as Hi.
  by rewrite Hit in Hi.
Qed.

End LoopInvariants.

(** *** The counter and the exits of the loop *)

Section Counters.

Context {P : Type} `{BinPacker P}.

Lemma passes_sprites k params total st st' :
  passes k params total st = Some st' ->
  (length (sprites st') <= length (sprites st))%nat.
Proof.
  revert st. induction k as [|k IH]; intros st Hk; simpl in Hk; [by simplify_eq|].
  destruct (iteration params total st) as [|st1] eqn:Hit; [done|].
  apply iteration_sprites in Hit. apply IH in Hk. lia.
Qed.

Lemma iteration_tasks params total st st' :
  iteration params total st = inr st' ->
  length (tasks st') = S (length (tasks st)).
Proof.
  intros Hit.
  destruct (iteration_cases params total st) as
    [(ts & Hr & _)|[Hlim [(pk & _ & Hr)|(pk & c & i & Hp)]]]; try congruence.
  rewrite (iteration_packed _ _ _ _ _ _ Hlim Hp) in Hit.
  destruct (length i =? 0)%nat; [done|].
  destruct (length i =? total)%nat; [done|].
  simplify_eq. simpl. rewrite length_app. simpl. lia.
Qed.

Lemma iteration_deferred params total st st' :
  iteration params total st = inr st' -> sprites st' <> [].
Proof.
  intros Hit.
  destruct (iteration_cases params total st) as
    [(ts & Hr & _)|[Hlim [(pk & _ & Hr)|(pk & c & i & Hp)]]]; try congruence.
  rewrite (iteration_packed _ _ _ _ _ _ Hlim Hp) in Hit.
  destruct (length i =? 0)%nat eqn:E0; [done|].
  destruct (length i =? total)%nat; [done|].
  simplify_eq. simpl. by intros ->.
Qed.

(** From the second iteration on the comparison with the number of sprites
    the run started with cannot succeed: a pass over fewer sprites that
    defers every one of them is followed by another pass over the same
    sprites. *)
Lemma stale_total_continues params total st packer incomplete :
  (0 <? MaxAtlases params) && (totalNumberOfAtlases st =? MaxAtlases params) = false ->
  (0 < length (sprites st) < total)%nat ->
  pack_pass (NewBinPacker (Width params) (Height params)) (sprites st) [] []
    = Packed packer [] incomplete ->
  exists st', iteration params total st = inr st' /\ sprites st' = incomplete /\
    length incomplete = length (sprites st).
Proof.
  intros Hlim Hlen Hp. rewrite (iteration_packed _ _ _ _ _ _ Hlim Hp).
  apply pack_pass_length in Hp. simpl in Hp.
  destruct (length incomplete =? 0)%nat eqn:E0; [apply Nat.eqb_eq in E0; lia|].
  destruct (length incomplete =? total)%nat eqn:Et; [apply Nat.eqb_eq in Et; lia|].
  eexists. split_and!; [done|done|lia].
Qed.

Lemma passes_tasks k params total st st' :
  passes k params total st = Some st' ->
  length (tasks st') = (length (tasks st) + k)%nat.
Proof.
  revert st. induction k as [|k IH]; intros st Hk; simpl in Hk.
  - simplify_eq. lia.
  - destruct (iteration params total st) as [|st1] eqn:Hit; [done|].
    apply iteration_tasks in Hit. apply IH in Hk. lia.
Qed.

Lemma passes_counter k params total sprites0 st :
  passes k params total (mkLoopState sprites0 0 [] []) = Some st ->
  totalNumberOfAtlases st = wrap (Z.of_nat k).
Proof.
  intros Hk. pose proof (passes_inv _ _ _ _ _ (inv_init params sprites0) Hk) as (Hc & _).
  apply passes_tasks in Hk. simpl in Hk. by rewrite Hc, Hk.
Qed.

Lemma limit_iteration params total st :
  (0 <? MaxAtlases params) && (totalNumberOfAtlases st =? MaxAtlases params) = true ->
  iteration params total st = inl (Return (too_many_atlases params) (tasks st)).
Proof. intros Hl. unfold iteration. by rewrite Hl. Qed.

Lemma iteration_too_many params total st ts :
  iteration params total st = inl (Return (too_many_atlases params) ts) ->
  (0 <? MaxAtlases params) && (totalNumberOfAtlases st =? MaxAtlases params) = true.
Proof.
  intros Hit.
  destruct (iteration_cases params total st) as
    [(ts' & _ & _ & Hl)|[Hlim [(pk & _ & Hr)|(pk & c & i & Hp)]]]; [done| |].
  - rewrite Hr in Hit. discriminate.
  - rewrite (iteration_packed _ _ _ _ _ _ Hlim Hp) in Hit.
    destruct (length i =? 0)%nat; [done|].
    destruct (length i =? total)%nat; discriminate.
Qed.

Lemma iteration_out_of_room params total st ts :
  (length (sprites st) <= total)%nat ->
  iteration params total st = inl (Return ErrOutOfRoom ts) ->
  ts = tasks st ++
       [output_task params (new_atlas params (incr (totalNumberOfAtlases st)) [])].
Proof.
  intros Hlen Hit.
  destruct (iteration_cases params total st) as
    [(ts' & Hr & _ & _)|[Hlim [(pk & _ & Hr)|(pk & c & i & Hp)]]].
  - rewrite Hr in Hit. discriminate.
  - rewrite Hr in Hit. discriminate.
  - rewrite (iteration_packed _ _ _ _ _ _ Hlim Hp) in Hit.
    apply pack_pass_length in Hp. simpl in Hp.
    destruct (length i =? 0)%nat; [done|].
    destruct (length i =? total)%nat eqn:Ei; [|done].
    apply Nat.eqb_eq in Ei. simplify_eq.
    destruct c; [done|simpl in *; lia].
Qed.

End Counters.

(** *** Zero progress, the atlas limit, oversized input *)

Section Exits.

Context {P : Type} `{BinPacker P}.

Lemma iteration_dispatch params total st :
  match iteration params total st with
  | inl (Return err ts) =>
      (err <> ErrOutOfRoom /\ ts = tasks st) \/
      (err = ErrOutOfRoom /\ exists completed,
         ts = tasks st ++
              [output_task params
                 (new_atlas params (incr (totalNumberOfAtlases st)) completed)])
  | inl (Break ts _) =>
      exists completed,
        ts = tasks st ++
             [output_task params
                (new_atlas params (incr (totalNumberOfAtlases st)) completed)]
  | inr st' =>
      totalNumberOfAtlases st' = incr (totalNumberOfAtlases st) /\
      exists completed,
        tasks st' = tasks st ++
             [output_task params
                (new_atlas params (incr (totalNumberOfAtlases st)) completed)]
  end.
Proof.
  destruct (iteration_cases params total st) as
    [(ts' & -> & -> & _)|[Hlim [(pk & _ & ->)|(pk & c & i & Hp)]]].
  - left. split; [discriminate|done].
  - left. split; [discriminate|done].
  - rewrite (iteration_packed _ _ _ _ _ _ Hlim Hp).
    destruct (length i =? 0)%nat; [eauto|].
    destruct (length i =? total)%nat; [right|]; eauto.
Qed.

(** C10.  In every iteration that gets as far as a completed pass, the
    atlas index is incremented and the output goroutine of the new atlas is
    started before the number of deferred sprites is looked at: whichever
    way the iteration ends (break, [ErrOutOfRoom], next iteration), the
    goroutines started are those of before and the new one.  So a run whose
    loop returns [ErrOutOfRoom] has started, last, a goroutine for an atlas
    without sprites. *)
Theorem out_of_room_after_dispatch (params : Params) (sprites0 : list sprite) :
  let total := length sprites0 in
  let init := mkLoopState sprites0 0 [] [] in
  (forall k st, passes k params total init = Some st ->
     match iteration params total st with
     | inl (Return err ts) =>
         (err <> ErrOutOfRoom /\ ts = tasks st) \/
         (err = ErrOutOfRoom /\ exists completed,
            ts = tasks st ++
                 [output_task params
                    (new_atlas params (incr (totalNumberOfAtlases st)) completed)])
     | inl (Break ts _) =>
         exists completed,
           ts = tasks st ++
                [output_task params
                   (new_atlas params (incr (totalNumberOfAtlases st)) completed)]
     | inr st' =>
         totalNumberOfAtlases st' = incr (totalNumberOfAtlases st) /\
         exists completed,
           tasks st' = tasks st ++
                [output_task params
                   (new_atlas params (incr (totalNumberOfAtlases st)) completed)]
     end) /\
  (forall fuel ts,
     pack_loop fuel params total init = Some (Return ErrOutOfRoom ts) ->
     exists ts' a,
       ts = ts' ++ [output_task params a] /\ Sprites a = [] /\
       a = new_atlas params (wrap (Z.of_nat (length ts') + 1)) []).
Proof.
  intros total init. split.
  - intros k st _. apply iteration_dispatch.
  - intros fuel ts He.
    apply pack_loop_passes in He as (k & st & _ & Hk & Hit).
    pose proof (passes_sprites _ _ _ _ _ Hk) as Hlen.
    pose proof (passes_inv _ _ _ _ _ (inv_init params sprites0) Hk) as (Hc & _).
    apply iteration_out_of_room in Hit; [|done].
    eexists (tasks st), _. split_and!; [exact Hit|done|].
    by rewrite Hc, incr_wrap.
Qed.

(** C4.  With [MaxAtlases = N > 0] the loop returns within [N + 1]
    iterations, and it returns the atlas-limit error exactly when [N]
    iterations have run in full and left sprites for another one (then [N]
    goroutines have been started); a loop that breaks in its [k+1]-th
    iteration, [k < N], does so with the limit in force as well, so a run
    that needs exactly [N] atlases is not stopped.  With [MaxAtlases <= 0]
    the loop never returns the atlas-limit error. *)
Theorem atlas_limit (params : Params) (sprites0 : list sprite) :
  let total := length sprites0 in
  let init := mkLoopState sprites0 0 [] [] in
  let N := MaxAtlases params in
  (0 < N <= max_int ->
     (exists e, pack_loop (S (Z.to_nat N)) params total init = Some e) /\
     (forall fuel e, pack_loop fuel params total init = Some e ->
        (exists ts, e = Return (too_many_atlases params) ts) <->
        is_Some (passes (Z.to_nat N) params total init)) /\
     (forall st, passes (Z.to_nat N) params total init = Some st ->
        sprites st <> [] /\ Z.of_nat (length (tasks st)) = N) /\
     (forall k st ts da,
        passes k params total init = Some st ->
        iteration params total st = inl (Break ts da) ->
        (k < Z.to_nat N)%nat /\ length ts = S k /\
        pack_loop (Z.to_nat N) params total init = Some (Break ts da))) /\
  (N <= 0 ->
     forall fuel ts,
       pack_loop fuel params total init <> Some (Return (too_many_atlases params) ts)).
Proof.
  intros total init N.
  assert (Hat : 0 < N <= max_int -> forall st, passes (Z.to_nat N) params total init = Some st ->
            iteration params total st = inl (Return (too_many_atlases params) (tasks st))).
  { intros HN st Hst. apply limit_iteration.
    rewrite (passes_counter _ _ _ _ _ Hst), wrap_small, Z2Nat.id by
      (rewrite ?Z2Nat.id; unfold is_int, min_int, max_int in *; lia).
    apply andb_true_iff. split; [apply Z.ltb_lt; lia|apply Z.eqb_refl]. }
  assert (Hle : 0 < N <= max_int -> forall k st, passes k params total init = Some st ->
            (k <= Z.to_nat N)%nat).
  { intros HN k st Hk. destruct (decide (k <= Z.to_nat N)%nat) as [|Hgt]; [done|].
    destruct (passes_le _ (S (Z.to_nat N)) _ _ _ _ Hk) as [st1 Hst1]; [lia|].
    apply passes_S in Hst1 as (st0 & Hst0 & Hit0).
    rewrite (Hat HN _ Hst0) in Hit0. discriminate. }
  split.
  - intros HN. split_and!.
    + destruct (passes (Z.to_nat N) params total init) as [st|] eqn:Hp.
      * exists (Return (too_many_atlases params) (tasks st)).
        replace (S (Z.to_nat N)) with (Z.to_nat N + 1)%nat by lia.
        rewrite (passes_pack_loop _ _ _ _ _ _ Hp). simpl. by rewrite (Hat HN _ eq_refl).
      * apply passes_None_pack_loop in Hp as [e He]. exists e.
        eapply pack_loop_more; [exact He|lia].
    + intros fuel e He. split.
      * intros [ts ->].
        apply pack_loop_passes in He as (k & st & _ & Hk & Hit).
        apply iteration_too_many in Hit. apply andb_true_iff in Hit as [_ Hit].
        apply Z.eqb_eq in Hit.
        pose proof (Hle HN _ _ Hk) as Hkn.
        rewrite (passes_counter _ _ _ _ _ Hk), wrap_small in Hit by
          (unfold is_int, min_int, max_int in *; lia).
        replace (Z.to_nat N) with k by (fold N in Hit; lia). by eexists.
      * intros [st Hst]. exists (tasks st).
        assert (pack_loop (Z.to_nat N + 1) params total init
                = Some (Return (too_many_atlases params) (tasks st))) as He'.
        { rewrite (passes_pack_loop _ _ _ _ _ _ Hst). simpl. by rewrite (Hat HN _ Hst). }
        eapply pack_loop_deterministic; [exact He|exact He'].
    + intros st Hst. split.
      * destruct (Z.to_nat N) as [|n] eqn:En; [lia|].
        apply passes_S in Hst as (st1 & _ & Hit). by apply iteration_deferred in Hit.
      * apply passes_tasks in Hst. simpl in Hst. lia.
    + intros k st ts da Hk Hit.
      pose proof (Hle HN _ _ Hk) as Hkn.
      assert (k <> Z.to_nat N) as Hne.
      { intros ->. rewrite (Hat HN _ Hk) in Hit. discriminate. }
      split_and!; [lia| |].
      * pose proof (iteration_dispatch params total st) as Hd. rewrite Hit in Hd.
        destruct Hd as [c ->]. rewrite length_app. simpl.
        apply passes_tasks in Hk. simpl in Hk. lia.
      * replace (Z.to_nat N) with (k + (Z.to_nat N - k))%nat by lia.
        rewrite (passes_pack_loop _ _ _ _ _ _ Hk).
        destruct (Z.to_nat N - k)%nat as [|f] eqn:E; [lia|]. simpl. by rewrite Hit.
  - intros HN fuel ts He.
    apply pack_loop_passes in He as (k & st & _ & _ & Hit).
    apply iteration_too_many in Hit. apply andb_true_iff in Hit as [Hit _].
    apply Z.ltb_lt in Hit. fold N in Hit. lia.
Qed.

(** C5.  Let the loop have reached the head of an iteration ([k]
    iterations done, limit not reached), and let the packer answer
    [ErrInputTooLarge] on the sprite [s] once the sprites [pre] before it
    have been packed.  Then the pass ends there, whatever sprites follow
    [s] (none of them is handed to the packer, and [s] is in neither
    slice); the iteration returns [ErrInputTooLarge] without starting a
    goroutine; and that error is what the run returns. *)
Theorem input_too_large_aborts (arrivals : list nat) (params : Params) (output : Outputter)
  (sprites0 : list sprite) (k : nat) (st : loop_state)
  (pre : list sprite) (s : sprite) (post : list sprite)
  (packer1 : P) (completed incomplete : list sprite) :
  let sorted := sort_ByArea sprites0 in
  passes k params (length sorted) (mkLoopState sorted 0 [] []) = Some st ->
  (0 <? MaxAtlases params) && (totalNumberOfAtlases st =? MaxAtlases params) = false ->
  sprites st = pre ++ s :: post ->
  pack_pass (NewBinPacker (Width params) (Height params)) pre [] []
    = Packed packer1 completed incomplete ->
  (Pack packer1 s).2 = Some ErrInputTooLarge ->
  (forall post',
     pack_pass (NewBinPacker (Width params) (Height params)) (pre ++ s :: post') [] []
     = Aborted (Pack packer1 s).1.1) /\
  iteration params (length sorted) st = inl (Return ErrInputTooLarge (tasks st)) /\
  (forall fuel, (k < fuel)%nat ->
     pack_and_output arrivals fuel params output sprites0
     = Some (mkOutcome (Some ErrInputTooLarge) (tasks st))).
Proof.
  intros sorted Hk Hlim Hsp Hpre Hs.
  assert (Hab : forall post',
    pack_pass (NewBinPacker (Width params) (Height params)) (pre ++ s :: post') [] []
    = Aborted (Pack packer1 s).1.1).
  { intros post'. rewrite (pack_pass_app _ _ _ _ _ _ _ _ Hpre). simpl.
    destruct (Pack packer1 s) as [[pk s'] err]. simpl in *. by subst. }
  assert (Hit : iteration params (length sorted) st
                = inl (Return ErrInputTooLarge (tasks st))).
  { unfold iteration. by rewrite Hlim, Hsp, Hab. }
  split_and!; [done|done|].
  intros fuel Hf. unfold pack_and_output. fold sorted.
  replace fuel with (k + S (fuel - S k))%nat by lia.
  rewrite (passes_pack_loop _ _ _ _ _ _ Hk). simpl. by rewrite Hit.
Qed.

End Exits.

(** *** File names and the combined descriptor *)

Section Outputs.

Context {P : Type} `{BinPacker P}.

Lemma new_atlas_named params index completed :
  named params index (new_atlas params index completed).
Proof. split; reflexivity. Qed.

Lemma names_ok_named params ts i t :
  names_ok params ts -> ts !! i = Some t ->
  exists a, (t = GoOutput a \/ t = GoOutputImage a) /\
    named params (wrap (Z.of_nat i + 1)) a.
Proof.
  intros Hn Hi. destruct (Hn i t Hi) as [c ->].
  eexists. split; [|apply new_atlas_named].
  unfold output_task. destruct (CombineDescFiles params); auto.
Qed.

Lemma Run_started sched fuel ctx p out :
  Run sched fuel ctx (Some p) = Some out ->
  started out = [] \/
  exists output sprites0,
    pack_and_output (arrivals sched) fuel (applySensibleDefaults p) output sprites0
    = Some out.
Proof.
  unfold Run. intros Hrun.
  destruct ctx; [|simplify_eq; by left].
  destruct (negb (IsValid (Format_ p))); [simplify_eq; by left|].
  destruct (validateRequiredParameters p); [simplify_eq; by left|].
  destruct (Input p); [|simplify_eq; by left].
  destruct (Output p); [|simplify_eq; by left].
  destruct (readAssetStream _ _ _ _); [simplify_eq; by left|].
  right. eauto.
Qed.

Lemma pack_and_output_started arrivals fuel params output sprites0 out :
  pack_and_output arrivals fuel params output sprites0 = Some out ->
  exists e,
    pack_loop fuel params (length (sort_ByArea sprites0))
      (mkLoopState (sort_ByArea sprites0) 0 [] []) = Some e /\
    exit_ok params e /\
    started out =
      match e with
      | Return _ ts => ts
      | Break ts da => if (0 <? length da)%nat then ts ++ [GoOutputDesc da] else ts
      end.
Proof.
  unfold pack_and_output. intros Hout.
  destruct (pack_loop _ _ _ _) as [e|] eqn:He; [|done].
  exists e. split; [done|]. split; [by eapply pack_loop_inv, He; apply inv_init|].
  destruct e; by simplify_eq.
Qed.

Lemma Run_names (sched : run_schedule) (fuel : nat) (ctx : option Context)
  (p : Params) (out : outcome) (i : nat) (t : task) :
  Run sched fuel ctx (Some p) = Some out ->
  started out !! i = Some t ->
  let params := applySensibleDefaults p in
  match t with
  | GoOutput a | GoOutputImage a => named params (wrap (Z.of_nat i + 1)) a
  | GoOutputDesc descAtlases =>
      forall j a, descAtlases !! j = Some a -> named params (wrap (Z.of_nat j + 1)) a
  end.
Proof.
  intros Hrun Hi params.
  apply Run_started in Hrun as [Hnil|(output & sprites0 & Hout)].
  { rewrite Hnil in Hi. by rewrite lookup_nil in Hi. }
  apply pack_and_output_started in Hout as (e & _ & Hok & Hst). rewrite Hst in Hi. clear Hst.
  assert (Hnamed : forall ts, names_ok params ts -> ts !! i = Some t ->
            match t with
            | GoOutput a | GoOutputImage a => named params (wrap (Z.of_nat i + 1)) a
            | GoOutputDesc da =>
                forall j a, da !! j = Some a -> named params (wrap (Z.of_nat j + 1)) a
            end).
  { intros ts Hn Ht. destruct (names_ok_named _ _ _ _ Hn Ht) as (a & [->| ->] & Ha); done. }
  destruct e as [err ts|ts da]; simpl in Hok; [by eapply Hnamed|].
  destruct Hok as (Hn & Hd & _).
  destruct (0 <? length da)%nat; [|by eapply Hnamed].
  apply lookup_app_Some in Hi as [Hi|[_ Hi]]; [by eapply Hnamed|].
  apply list_lookup_singleton_Some in Hi as [_ <-].
  intros j a Hj. unfold descs_ok in Hd.
  change (applySensibleDefaults p) with params in Hd.
  destruct (CombineDescFiles params) eqn:Hc;
    [|rewrite Hd in Hj; by rewrite lookup_nil in Hj].
  assert (ts !! j = Some (GoOutputImage a)) as Htj.
  { rewrite Hd, list_lookup_fmap, Hj. done. }
  destruct (names_ok_named _ _ _ _ Hn Htj) as (a' & [?| ?] & Ha); by simplify_eq.
Qed.

(** C7.  Every output goroutine started, the [i+1]-th of them, carries the
    atlas of index [i + 1]: its image file is named by the naming
    function's stem for that index followed by [.png], its descriptor file
    by that stem, or by the base name of the run when descriptors are
    combined, followed by a dot and the extension of the format.  This
    holds of the goroutines started at any point of the loop, and of those
    a run that returns leaves behind; the atlases handed to the combined
    descriptor goroutine are these same atlases.  ([wrap] is the identity
    below 2^63 atlases.) *)
Theorem file_names (p : Params) :
  let params := applySensibleDefaults p in
  (forall sprites0 k st i t,
     passes k params (length (sort_ByArea sprites0))
       (mkLoopState (sort_ByArea sprites0) 0 [] []) = Some st ->
     tasks st !! i = Some t ->
     exists a, (t = GoOutput a \/ t = GoOutputImage a) /\
       named params (wrap (Z.of_nat i + 1)) a) /\
  (forall sched fuel ctx out i t,
     Run sched fuel ctx (Some p) = Some out ->
     started out !! i = Some t ->
     match t with
     | GoOutput a | GoOutputImage a => named params (wrap (Z.of_nat i + 1)) a
     | GoOutputDesc descAtlases =>
         forall j a, descAtlases !! j = Some a -> named params (wrap (Z.of_nat j + 1)) a
     end).
Proof.
  intros params. split.
  - intros sprites0 k st i t Hk Hi.
    pose proof (passes_inv _ _ _ _ _ (inv_init params _) Hk) as (_ & Hn & _).
    by eapply names_ok_named.
  - intros sched fuel ctx out i t Hrun Hi. by eapply Run_names.
Qed.

Lemma desc_calls_cons a rest :
  desc_calls (a :: rest) = (a, false) :: map (fun b => (b, true)) rest.
Proof.
  unfold desc_calls. rewrite imap_cons. f_equal.
  induction rest as [|b rest IH] using rev_ind; [done|].
  rewrite imap_app, map_app, IH. done.
Qed.

Lemma write_appends (l : list atlas) (files : gmap string (list sprite)) fn content :
  Forall (fun b => DescFilename b = fn) l ->
  files !! fn = Some content ->
  foldl (fun files '(a, append) => OutputDesc a append files) files
    (map (fun b => (b, true)) l) !! fn
  = Some (content ++ concat (map Sprites l)).
Proof.
  intros Hl. revert files content. induction Hl as [|b l Hb _ IH]; intros files content Hf.
  - simpl. by rewrite app_nil_r.
  - simpl. rewrite (IH _ (content ++ Sprites b)).
    + by rewrite <- app_assoc.
    + unfold OutputDesc. rewrite Hb, Hf. simpl. apply lookup_insert_eq.
Qed.

Lemma write_descs_file a rest (files : gmap string (list sprite)) fn :
  Forall (fun b => DescFilename b = fn) (a :: rest) ->
  write_descs (a :: rest) files !! fn = Some (concat (map Sprites (a :: rest))).
Proof.
  intros Hl. inversion Hl as [|? ? Ha Hrest]; subst.
  unfold write_descs. rewrite desc_calls_cons. simpl.
  apply write_appends; [done|]. unfold OutputDesc. apply lookup_insert_eq.
Qed.

(** C9.  With descriptor combining enabled, a run whose loop ends with
    [break] has started one image goroutine per atlas, in creation order,
    and after them one combined descriptor goroutine, for these atlases in
    this order.  That goroutine calls [OutputDesc] in create mode for the
    first atlas and in append mode for every other one, all of them on the
    file named after the base name; on a sink that replaces on create and
    extends on append, the file then holds the sprites of all atlases in
    creation order. *)
Theorem combined_descriptor (arrivals : list nat) (fuel : nat) (params : Params)
  (output : Outputter) (sprites0 : list sprite) (ts : list task) (da : list atlas) :
  CombineDescFiles params = true ->
  pack_loop fuel params (length (sort_ByArea sprites0))
    (mkLoopState (sort_ByArea sprites0) 0 [] []) = Some (Break ts da) ->
  let fn := Name params +:+ "." +:+ Ext (Format_ params) in
  exists a rest,
    da = a :: rest /\
    ts = map GoOutputImage da /\
    started <$> pack_and_output arrivals fuel params output sprites0
      = Some (map GoOutputImage da ++ [GoOutputDesc da]) /\
    desc_calls da = (a, false) :: map (fun b => (b, true)) rest /\
    Forall (fun b => DescFilename b = fn) da /\
    forall files, write_descs da files !! fn = Some (concat (map Sprites da)).
Proof.
  intros Hc He fn.
  pose proof (pack_loop_inv _ _ _ _ _ (inv_init params _) He) as (Hn & Hd & Hne).
  unfold descs_ok in Hd. rewrite Hc in Hd.
  destruct da as [|a rest]; [done|]. exists a, rest.
  assert (Hfn : Forall (fun b => DescFilename b = fn) (a :: rest)).
  { apply Forall_lookup. intros j b Hj.
    assert (ts !! j = Some (GoOutputImage b)) as Htj by (by rewrite Hd, list_lookup_fmap, Hj).
    destruct (names_ok_named _ _ _ _ Hn Htj) as (a' & [?| ?] & _ & Ha); simplify_eq.
    by rewrite Ha, Hc. }
  split_and!; try done.
  - unfold pack_and_output. rewrite He. simpl. by rewrite Hd.
  - apply desc_calls_cons.
  - intros files. by apply write_descs_file.
Qed.

End Outputs.

Lemma decode_body_header padding scale a :
  match header a with
  | Some cfg =>
      decode_body padding scale a =
      mkResult (Some (mkSprite a (Asset_id a) (scaled (cfg_Width cfg) scale)
                        (scaled (cfg_Height cfg) scale) padding 0 0)) None
  | None =>
      res_Sprite (decode_body padding scale a) = None /\
      exists err, res_Err (decode_body padding scale a) = Some err /\ decode_error a err
  end.
Proof.
  unfold header, decode_body.
  destruct (Reader a) as [msg|r]; [|destruct (image_DecodeConfig r) as [msg|cfg]]; simpl.
  - split; [done|]. eexists. split; [done|]. left. by exists msg.
  - split; [done|]. eexists. split; [done|]. right. by exists msg.
  - done.
Qed.

Lemma decode_body_ok padding scale a :
  res_Err (decode_body padding scale a) = None -> is_Some (res_Sprite (decode_body padding scale a)).
Proof.
  pose proof (decode_body_header padding scale a) as Hh.
  destruct (header a); [rewrite Hh; by eexists|].
  destruct Hh as (_ & err & -> & _). done.
Qed.

Lemma omap_length_all {A B} (f : A -> option B) l :
  Forall (fun a => is_Some (f a)) l -> length (omap f l) = length l.
Proof.
  induction 1 as [|a l [b Hb] _ IH]; [done|]. csimpl. rewrite Hb. simpl. by f_equal.
Qed.

Lemma omap_map {A B C} (g : A -> B) (f : B -> option C) l :
  omap f (map g l) = omap (fun a => f (g a)) l.
Proof. induction l as [|a l IH]; [done|]. csimpl. by rewrite IH. Qed.

(** ** Defaults *)

Section Defaults.

Context {P : Type} `{BinPacker P}.

Lemma pack_loop_no_limit fuel params total st ts :
  MaxAtlases params <= 0 ->
  pack_loop fuel params total st <> Some (Return (too_many_atlases params) ts).
Proof.
  intros HN He. apply pack_loop_passes in He as (k & st' & _ & _ & Hit).
  apply iteration_too_many in Hit. apply andb_true_iff in Hit as [Hit _].
  apply Z.ltb_lt in Hit. lia.
Qed.

Lemma Run_defaults sched fuel ctx p :
  Run sched fuel ctx (Some p) = Run sched fuel ctx (Some (applySensibleDefaults p)).
Proof.
  unfold Run. destruct ctx; [|done].
  rewrite applySensibleDefaults_idem.
  unfold validateRequiredParameters.
  assert (Format_ (applySensibleDefaults p) = Format_ p) as ->
    by (by rewrite applySensibleDefaults_fields).
  assert (Input (applySensibleDefaults p) = Input p) as ->
    by (by rewrite applySensibleDefaults_fields).
  assert (Output (applySensibleDefaults p) = Output p) as ->
    by (by rewrite applySensibleDefaults_fields).
  done.
Qed.

(** C8.  [applySensibleDefaults] replaces an empty name by ["atlas"], a
    zero width or height by 2048, a zero scale by 1.0 and a missing naming
    function by the one that joins name and index with a dash; it leaves
    every other value, and every other field, as it was.  [Run] behaves on
    [p] as on the parameters so completed, and with [MaxAtlases] left at
    zero its loop never returns the atlas-limit error. *)
Theorem sensible_defaults (p : Params) :
  let q := applySensibleDefaults p in
  Name q = (if bool_decide (Name p = "") then "atlas" else Name p) /\
  Width q = (if Width p =? 0 then 2048 else Width p) /\
  Height q = (if Height p =? 0 then 2048 else Height p) /\
  Scale q = (if PrimFloat.eqb (Scale p) 0 then 1%float else Scale p) /\
  NameFormatter_ q =
    Some (default (fun name index => name +:+ "-" +:+ itoa index) (NameFormatter_ p)) /\
  (Input q, Output q, Format_ q, Padding q, MaxAtlases q, CombineDescFiles q)
    = (Input p, Output p, Format_ p, Padding p, MaxAtlases p, CombineDescFiles p) /\
  (forall sched fuel ctx,
     Run sched fuel ctx (Some p) = Run sched fuel ctx (Some q)) /\
  (MaxAtlases p = 0 ->
   forall fuel total st ts,
     pack_loop fuel q total st <> Some (Return (too_many_atlases q) ts)).
Proof.
  intros q. subst q. split_and!; try (rewrite applySensibleDefaults_fields; reflexivity).
  - intros. apply Run_defaults.
  - intros HN fuel total st ts. apply pack_loop_no_limit.
    rewrite applySensibleDefaults_fields. simpl. lia.
Qed.

End Defaults.

(** C3 (as amended).  [decode] reports an error for an asset exactly when
    its reader cannot be opened or its header cannot be read.  When every
    asset of the stream has a header, the pipeline returns sprites, whatever
    the scale factor, and each sprite has the width and height
    [int(float64(dimension) * scale)] of its header, positive or not. *)
Theorem scaling_never_fails (sched : decode_schedule) (assets : list Asset)
  (padding : Z) (scale : float) :
  (forall a, is_Some (res_Err (decode_body padding scale a)) <-> header a = None) /\
  (Forall (fun a => is_Some (header a)) assets ->
   exists sprites,
     readAssetStream sched (mkAssetStreamer assets None) padding scale = inr sprites /\
     Forall (fun s =>
               exists cfg, header (spr_Asset s) = Some cfg /\
                 w s = scaled (cfg_Width cfg) scale /\
                 h s = scaled (cfg_Height cfg) scale) sprites).
Proof.
  split.
  - intros a. pose proof (decode_body_header padding scale a) as Hh.
    destruct (header a) as [cfg|].
    + rewrite Hh. simpl. split; [by intros [? ?]|done].
    + destruct Hh as (_ & err & -> & _). split; [done|by eexists].
  - intros Hall. unfold readAssetStream. simpl.
    set (out := (published sched assets padding scale).1).
    assert (Hout : Forall (fun r => exists a cfg, header a = Some cfg /\
              r = mkResult (Some (mkSprite a (Asset_id a) (scaled (cfg_Width cfg) scale)
                                    (scaled (cfg_Height cfg) scale) padding 0 0)) None) out).
    { apply Forall_forall. intros r Hr.
      apply published_elem_of in Hr as (a & Ha & ->).
      rewrite Forall_forall in Hall. destruct (Hall a Ha) as [cfg Hcfg].
      pose proof (decode_body_header padding scale a) as Hh. rewrite Hcfg in Hh. eauto. }
    destruct (collect_no_error out []) as [sprites Hs].
    { eapply Forall_impl; [exact Hout|]. by intros r (a & cfg & _ & ->). }
    exists sprites. rewrite Hs. split; [done|].
    apply collect_inr in Hs as [_ ->]. simpl.
    clear -Hout. induction Hout as [|r out (a & cfg & Hcfg & ->) _ IH]; [constructor|].
    simpl. constructor; [|done]. exists cfg. by simpl.
Qed.

Lemma readAssetStream_inr sched stream padding scale sprites0 :
  readAssetStream sched stream padding scale = inr sprites0 ->
  let assets := stream_assets stream in
  let out := (published sched assets padding scale).1 in
  Forall (fun r => res_Err r = None) out /\ stream_err stream = None /\
  sprites0 = omap res_Sprite out /\
  (complete sched assets padding scale = true ->
   Forall (fun a => res_Err (decode_body padding scale a) = None) assets /\
   sprites0 ≡ₚ omap (fun a => res_Sprite (decode_body padding scale a)) assets /\
   length sprites0 = length assets).
Proof.
  intros Hr assets out. unfold readAssetStream in Hr. fold assets in Hr. fold out in Hr.
  destruct (collect out []) as [err|sprites1] eqn:Hc; [done|].
  destruct (stream_err stream) as [err|] eqn:Hse; [done|]. simplify_eq.
  apply collect_inr in Hc as [Hout ->]. simpl.
  split_and!; try done. intros Hcomplete.
  pose proof (published_perm _ _ _ _ Hcomplete) as Hp. fold out in Hp.
  assert (Hall : Forall (fun a => res_Err (decode_body padding scale a) = None) assets).
  { rewrite Hp in Hout. by apply Forall_fmap in Hout. }
  split_and!; [done| |].
  - rewrite Hp. by rewrite omap_map.
  - rewrite Hp, omap_map. apply omap_length_all.
    eapply Forall_impl; [exact Hall|]. intros a. apply decode_body_ok.
Qed.

Lemma readAssetStream_inl sched stream padding scale err :
  readAssetStream sched stream padding scale = inl err ->
  let assets := stream_assets stream in
  let out := (published sched assets padding scale).1 in
  (exists pre a post,
     out = pre ++ decode_body padding scale a :: post /\
     Forall (fun r => res_Err r = None) pre /\
     a ∈ assets /\
     res_Err (decode_body padding scale a) = Some err /\
     decode_error a err) \/
  (Forall (fun r => res_Err r = None) out /\ stream_err stream = Some err).
Proof.
  intros Hr assets out. unfold readAssetStream in Hr. fold assets in Hr. fold out in Hr.
  destruct (collect out []) as [err'|sprites1] eqn:Hc.
  - simplify_eq. left. apply collect_inl in Hc as (pre & r & post & Hout & Hpre & Hr).
    assert (r ∈ out) as Hin by (rewrite Hout; set_solver).
    apply published_elem_of in Hin as (a & Ha & ->).
    exists pre, a, post. split_and!; try done.
    pose proof (decode_body_header padding scale a) as Hh.
    destruct (header a); [by rewrite Hh in Hr|].
    destruct Hh as (_ & err' & Herr & Hd). congruence.
  - apply collect_inr in Hc as [Hout ->].
    destruct (stream_err stream) as [err'|] eqn:Hse; [|done]. simplify_eq. by right.
Qed.

(** C6 (as amended).  The pipeline returns the sprites of the results it
    was delivered, when none of them carries an error and the stream ends
    without one; under a schedule that delivers every result that is one
    sprite per asset.  Otherwise it returns the first error it observes:
    the error of the first failed result delivered, which names the
    identifier of its asset, or, when every result delivered is a sprite,
    the terminal error of the asset stream.  A decoder goes on with the
    assets that follow one that failed. *)
Theorem decode_pipeline_result (sched : decode_schedule) (stream : AssetStreamer)
  (padding : Z) (scale : float) :
  let assets := stream_assets stream in
  let out := (published sched assets padding scale).1 in
  match readAssetStream sched stream padding scale with
  | inr sprites =>
      Forall (fun r => res_Err r = None) out /\ stream_err stream = None /\
      sprites = omap res_Sprite out /\
      (complete sched assets padding scale = true ->
       Forall (fun a => res_Err (decode_body padding scale a) = None) assets /\
       sprites ≡ₚ omap (fun a => res_Sprite (decode_body padding scale a)) assets /\
       length sprites = length assets)
  | inl err =>
      (exists pre a post,
         out = pre ++ decode_body padding scale a :: post /\
         Forall (fun r => res_Err r = None) pre /\
         a ∈ assets /\
         res_Err (decode_body padding scale a) = Some err /\
         decode_error a err) \/
      (Forall (fun r => res_Err r = None) out /\ stream_err stream = Some err)
  end /\
  (forall in1 a in2,
     decode padding scale (in1 ++ a :: in2)
     = decode padding scale in1 ++ decode_body padding scale a :: decode padding scale in2).
Proof.
  intros assets out. split; [|intros; by rewrite decode_app].
  destruct (readAssetStream sched stream padding scale) as [err|sprites0] eqn:Hr.
  - by apply readAssetStream_inl.
  - by apply readAssetStream_inr.
Qed.


(** ** Order of arrival *)

Section ArrivalOrder.

Context {P : Type} `{BinPacker P}.





Lemma Run_stages sched fuel ctx p input output :
  IsValid (Format_ p) = true -> Input p = Some input -> Output p = Some output ->
  Run sched fuel (Some ctx) (Some p)
  = match readAssetStream (decoding sched) input (Padding p)
            (Scale (applySensibleDefaults p)) with
    | inl err => Some (mkOutcome (Some err) [])
    | inr sprites0 =>
        pack_and_output (arrivals sched) fuel (applySensibleDefaults p) output sprites0
    end.
Proof.
  intros Hv Hi Ho. unfold Run, validateRequiredParameters. rewrite Hv, Hi, Ho. cbn [negb].
  assert (Padding (applySensibleDefaults p) = Padding p) as ->
    by (by rewrite applySensibleDefaults_fields).
  done.
Qed.



End ArrivalOrder.

(** ** The properties on concrete runs *)


Lemma too_wide_deferred_forever fuel c ts da :
  pack_loop (P := Guillotine.canvas) fuel
    (applySensibleDefaults (small_canvas too_wide 1 0 false)) 2
    (mkLoopState [big] c ts da) = None.
Proof.
  revert c ts da. induction fuel as [|fuel IH]; intros c ts da; [done|].
  cbn [pack_loop].
  erewrite iteration_packed; [|reflexivity|vm_compute; reflexivity].
  cbn [length Nat.eqb]. apply IH.
Qed.

(** C1 (the code departs from the claim).  The claim: whenever a pass
    places no sprite, [Run] fails with [ErrOutOfRoom], on every pass.  The
    code compares the number of deferred sprites with the number of sprites
    the run started with, which fits the first pass only.  Here two assets
    are packed with a padding of 1 on a 10 by 10 canvas: the first pass
    places the small one and defers the big one; the second pass has one
    sprite, places none, and the loop goes on.  Without a limit on the atlas
    count [Run] never returns, whatever the fuel; with a limit of 3 it
    returns the atlas-limit error. *)
Theorem zero_progress_on_second_pass :
  let p := small_canvas too_wide 1 0 false in
  let params := applySensibleDefaults p in
  let sorted := sort_ByArea (decoded 1 1 too_wide) in
  (exists st packer,
     passes (P := Guillotine.canvas) 1 params 2 (mkLoopState sorted 0 [] []) = Some st /\
     sprites st = [big] /\
     pack_pass (NewBinPacker 10 10) (sprites st) [] [] = Packed packer [] [big] /\
     exists st', iteration params 2 st = inr st' /\ sprites st' = [big]) /\
  (forall fuel,
     Run (P := Guillotine.canvas) (in_order 2) fuel (Some tt) (Some p) = None) /\
  returned <$> Run (P := Guillotine.canvas) (in_order 2) 4 (Some tt)
                 (Some (small_canvas too_wide 1 3 false))
  = Some (Some (errorString "Maximum number of atlases (3) exceeded")).
Proof.
  intros p params sorted. split_and!.
  - eexists _, _. split_and!; [vm_compute; reflexivity|reflexivity|vm_compute; reflexivity|].
    eexists. split; [vm_compute; reflexivity|reflexivity].
  - intros fuel.
    rewrite (Run_stages _ _ _ _ (mkAssetStreamer too_wide None) recorder) by reflexivity.
    assert (readAssetStream (decoding (in_order 2)) (mkAssetStreamer too_wide None)
              (Padding p) (Scale (applySensibleDefaults p)) = inr (decoded 1 1 too_wide))
      as -> by (vm_compute; reflexivity).
    unfold pack_and_output.
    destruct fuel as [|fuel]; [done|]. cbn [pack_loop].
    assert (iteration (P := Guillotine.canvas) (applySensibleDefaults p)
              (length (sort_ByArea (decoded 1 1 too_wide)))
              (mkLoopState (sort_ByArea (decoded 1 1 too_wide)) 0 [] [])
            = inr (mkLoopState [big] 1
                     [GoOutput (new_atlas (applySensibleDefaults p) 1
                                  [mkSprite (png "small" 2 2) "small" 2 2 1 0 0])] []))
      as -> by (vm_compute; reflexivity).
    change (length (sort_ByArea (decoded 1 1 too_wide))) with 2%nat.
    by rewrite too_wide_deferred_forever.
  - vm_compute. reflexivity.
Qed.




(** C3 fails as stated: a 1 by 1 image scaled by 0.5 becomes a sprite of
    width and height 0, and scaled by -1 one of width and height -1; in
    both cases decoding reports no error. *)
Lemma scaled_to_nothing :
  ~ match readAssetStream (decoding (in_order 1)) (mkAssetStreamer dot None) 0 0.5%float with
    | inr sprites => Forall (fun s => 0 < w s /\ 0 < h s) sprites
    | inl _ => True
    end /\
  ~ match readAssetStream (decoding (in_order 1)) (mkAssetStreamer dot None) 0 (-1)%float with
    | inr sprites => Forall (fun s => 0 < w s /\ 0 < h s) sprites
    | inl _ => True
    end.
Proof.
  split; intros Hc; vm_compute in Hc; inversion Hc as [|? ? [Hw _] _]; discriminate Hw.
Qed.

(** The amended C3 on the 1 by 1 image scaled by 0.5. *)
Lemma scaling_never_fails_witness :
  exists sprites,
    readAssetStream (decoding (in_order 1)) (mkAssetStreamer dot None) 0 0.5%float
      = inr sprites /\
    Forall (fun s =>
              exists cfg, header (spr_Asset s) = Some cfg /\
                w s = scaled (cfg_Width cfg) 0.5%float /\
                h s = scaled (cfg_Height cfg) 0.5%float) sprites.
Proof.
  apply (proj2 (scaling_never_fails (decoding (in_order 1)) dot 0 0.5%float)).
  repeat constructor. vm_compute. eauto.
Defined.

(** C6 fails as stated: when the only asset decodes and the stream ends
    with an error, the pipeline returns that error, which is the error of
    no asset, and not the list of sprites. *)
Lemma stream_error_names_no_asset :
  ~ match readAssetStream (decoding (in_order 1)) failed_listing 0 1%float with
    | inr sprites => length sprites = length (stream_assets failed_listing)
    | inl err =>
        exists a, a ∈ stream_assets failed_listing /\
          res_Err (decode_body 0 1%float a) = Some err
    end.
Proof.
  assert (readAssetStream (decoding (in_order 1)) failed_listing 0 1%float
          = inl (errorString "open fixtures: no such directory")) as ->
    by (vm_compute; reflexivity).
  intros (a & Ha & Herr). apply list_elem_of_singleton in Ha as ->. discriminate Herr.
Qed.


(** C4 with a limit of one atlas on two sprites that need an atlas each. *)
Lemma atlas_limit_witness :
  let params := packed 1 false in
  let sorted := sort_ByArea (decoded 0 1 two_sizes) in
  (exists e, pack_loop (P := Guillotine.canvas) 2 params 2
               (mkLoopState sorted 0 [] []) = Some e) /\
  (forall fuel e,
     pack_loop (P := Guillotine.canvas) fuel params 2 (mkLoopState sorted 0 [] []) = Some e ->
     (exists ts, e = Return (too_many_atlases params) ts) <->
     is_Some (passes (P := Guillotine.canvas) 1 params 2 (mkLoopState sorted 0 [] []))) /\
  (forall st,
     passes (P := Guillotine.canvas) 1 params 2 (mkLoopState sorted 0 [] []) = Some st ->
     sprites st <> [] /\ Z.of_nat (length (tasks st)) = 1) /\
  (forall k st ts da,
     passes (P := Guillotine.canvas) k params 2 (mkLoopState sorted 0 [] []) = Some st ->
     iteration params 2 st = inl (Break ts da) ->
     (k < 1)%nat /\ length ts = S k /\
     pack_loop 1 params 2 (mkLoopState sorted 0 [] []) = Some (Break ts da)).
Proof.
  intros params sorted.
  apply (proj1 (atlas_limit (P := Guillotine.canvas) params sorted)).
  vm_compute. split; [reflexivity|discriminate].
Defined.

(** C5 on an 11 by 11 image and a 10 by 10 canvas. *)
Lemma input_too_large_aborts_witness :
  let params := applySensibleDefaults (small_canvas oversized 0 0 false) in
  let poster := mkSprite (png "poster" 11 11) "poster" 11 11 0 0 0 in
  (forall post',
     pack_pass (NewBinPacker 10 10) ([] ++ poster :: post') [] []
     = Aborted (Pack (NewBinPacker (P := Guillotine.canvas) 10 10) poster).1.1) /\
  iteration (P := Guillotine.canvas) params 2
    (mkLoopState (sort_ByArea (decoded 0 1 oversized)) 0 [] [])
    = inl (Return ErrInputTooLarge []) /\
  (forall fuel, (0 < fuel)%nat ->
     pack_and_output (P := Guillotine.canvas) [] fuel params recorder (decoded 0 1 oversized)
     = Some (mkOutcome (Some ErrInputTooLarge) [])).
Proof.
  intros params poster.
  apply (input_too_large_aborts (P := Guillotine.canvas) [] params recorder
           (decoded 0 1 oversized) 0
           (mkLoopState (sort_ByArea (decoded 0 1 oversized)) 0 [] [])
           [] poster [mkSprite (png "small" 2 2) "small" 2 2 0 0 0]
           (NewBinPacker 10 10) [] []); reflexivity.
Defined.

(** The amended C6 on two assets that decode. *)
Lemma decode_pipeline_result_witness :
  exists sprites,
    readAssetStream (decoding (in_order 2)) (mkAssetStreamer two_sizes None) 0 1%float
      = inr sprites /\
    sprites ≡ₚ omap (fun a => res_Sprite (decode_body 0 1%float a)) two_sizes /\
    length sprites = 2%nat.
Proof.
  pose proof (decode_pipeline_result (decoding (in_order 2))
                (mkAssetStreamer two_sizes None) 0 1%float) as [Hr _].
  cbv zeta in Hr.
  destruct (readAssetStream (decoding (in_order 2)) (mkAssetStreamer two_sizes None) 0 1%float)
    as [err|sprites] eqn:Hread; [exfalso; vm_compute in Hread; discriminate|].
  destruct Hr as (_ & _ & _ & Hc). exists sprites. split; [reflexivity|].
  destruct Hc as (_ & Hp & Hl); [vm_compute; reflexivity|]. by split.
Defined.

(** C7 on the second of two atlases, with combined descriptors. *)
Lemma file_names_witness :
  exists out a,
    Run (P := Guillotine.canvas) (in_order 2) 5 (Some tt)
      (Some (small_canvas two_sizes 0 0 true)) = Some out /\
    started out !! 1%nat = Some (GoOutputImage a) /\
    ImageFilename a = "atlas-2.png" /\ DescFilename a = "atlas.lua".
Proof.
  let r := eval vm_compute in
    (Run (P := Guillotine.canvas) (in_order 2) 5 (Some tt)
       (Some (small_canvas two_sizes 0 0 true))) in
  match r with
  | Some ?o =>
      let l := eval vm_compute in (started o !! 1%nat) in
      match l with
      | Some (GoOutputImage ?a) => pose (out := o); pose (second := a)
      end
  end.
  assert (Hrun : Run (P := Guillotine.canvas) (in_order 2) 5 (Some tt)
                   (Some (small_canvas two_sizes 0 0 true)) = Some out)
    by (vm_compute; reflexivity).
  assert (Hsecond : started out !! 1%nat = Some (GoOutputImage second))
    by (vm_compute; reflexivity).
  pose proof (proj2 (file_names (P := Guillotine.canvas)
                       (small_canvas two_sizes 0 0 true))
                (in_order 2) 5%nat (Some tt) out 1%nat (GoOutputImage second)
                Hrun Hsecond) as Hn.
  vm_compute in Hn.
  exists out, second. split; [exact Hrun|]. split; [exact Hsecond|]. exact Hn.
Defined.

(** C8 on parameters with every optional field unset. *)
Lemma sensible_defaults_witness :
  let q := applySensibleDefaults (unset [png "button.png" 16 16]) in
  (Name q, Width q, Height q, Scale q) = ("atlas", 2048, 2048, 1%float) /\
  (exists f, NameFormatter_ q = Some f /\ f "atlas" 1 = "atlas-1") /\
  forall fuel total st ts,
    pack_loop (P := Guillotine.canvas) fuel q total st
    <> Some (Return (too_many_atlases q) ts).
Proof.
  intros q.
  destruct (sensible_defaults (P := Guillotine.canvas) (unset [png "button.png" 16 16]))
    as (Hn & Hw & Hh & Hs & Hf & _ & _ & Hmax).
  fold q in Hn, Hw, Hh, Hs, Hf, Hmax.
  split_and!.
  - rewrite Hn, Hw, Hh, Hs. reflexivity.
  - eexists. split; [exact Hf|reflexivity].
  - apply Hmax. reflexivity.
Defined.

(** C9 on two atlases. *)
Lemma combined_descriptor_witness :
  exists a1 a2,
    started <$> pack_and_output (P := Guillotine.canvas) [] 5 (packed 0 true) recorder
                  (decoded 0 1 two_sizes)
      = Some [GoOutputImage a1; GoOutputImage a2; GoOutputDesc [a1; a2]] /\
    desc_calls [a1; a2] = [(a1, false); (a2, true)] /\
    DescFilename a1 = "atlas.lua" /\ DescFilename a2 = "atlas.lua" /\
    forall files, write_descs [a1; a2] files !! "atlas.lua" = Some (Sprites a1 ++ Sprites a2 ++ []).
Proof.
  let r := eval vm_compute in
    (pack_loop (P := Guillotine.canvas) 5 (packed 0 true)
       (length (sort_ByArea (decoded 0 1 two_sizes)))
       (mkLoopState (sort_ByArea (decoded 0 1 two_sizes)) 0 [] [])) in
  match r with
  | Some (Break ?ts ?da) => pose (tasks0 := ts); pose (atlases := da)
  end.
  assert (Hloop : pack_loop (P := Guillotine.canvas) 5 (packed 0 true)
                    (length (sort_ByArea (decoded 0 1 two_sizes)))
                    (mkLoopState (sort_ByArea (decoded 0 1 two_sizes)) 0 [] [])
                  = Some (Break tasks0 atlases)) by (vm_compute; reflexivity).
  destruct (combined_descriptor (P := Guillotine.canvas) [] 5 (packed 0 true) recorder
              (decoded 0 1 two_sizes) tasks0 atlases eq_refl Hloop)
    as (a & rest & Hda & _ & Hst & Hcalls & Hfn & Hw).
  subst atlases. injection Hda as <- <-. 
  eexists _, _. split_and!.
  - exact Hst.
  - exact Hcalls.
  - reflexivity.
  - reflexivity.
  - exact Hw.
Defined.

(** C10 on a single sprite whose padded box exceeds the canvas. *)
Lemma out_of_room_after_dispatch_witness :
  let params := applySensibleDefaults (small_canvas [png "big" 10 10] 1 0 false) in
  exists ts' a,
    pack_loop (P := Guillotine.canvas) 1 params 1
      (mkLoopState (decoded 1 1 [png "big" 10 10]) 0 [] [])
    = Some (Return ErrOutOfRoom (ts' ++ [output_task params a])) /\
    Sprites a = [] /\ ImageFilename a = "atlas-1.png".
Proof.
  intros params.
  let r := eval vm_compute in
    (pack_loop (P := Guillotine.canvas) 1 params 1
       (mkLoopState (decoded 1 1 [png "big" 10 10]) 0 [] [])) in
  match r with
  | Some (Return _ ?ts) => pose (tasks0 := ts)
  end.
  assert (Hloop : pack_loop (P := Guillotine.canvas) 1 params 1
                    (mkLoopState (decoded 1 1 [png "big" 10 10]) 0 [] [])
                  = Some (Return ErrOutOfRoom tasks0)) by (vm_compute; reflexivity).
  destruct (proj2 (out_of_room_after_dispatch (P := Guillotine.canvas) params
                     (decoded 1 1 [png "big" 10 10])) 1%nat tasks0 Hloop)
    as (ts' & a & Hts & Hnil & Ha).
  exists ts', a. split_and!.
  - rewrite <- Hts. exact Hloop.
  - exact Hnil.
  - assert (ts' = []) as ->.
    { destruct ts' as [|t [|t' ts']]; [done|discriminate Hts|].
      apply (f_equal length) in Hts. rewrite length_app in Hts. simpl in Hts. lia. }
    rewrite Ha. reflexivity.
Defined.

(** * Further properties *)

(** ** The pass *)

Section Passes.

Context {P : Type} `{BinPacker P}.

(** X1.  From the second iteration on the pass reads [sprites] and appends
    to [incompleteSprites] in one array.  Run on that array, whatever its
    cells past the sprites hold, the pass returns what it returns on lists
    of their own: [append] never writes a cell the loop has yet to read. *)
Theorem pass_in_place (packer : P) (l rest : list sprite) :
  pack_pass_shared (length l) packer (l ++ rest) 0 [] 0 = pack_pass packer l [] [].
Proof.
  rewrite pack_pass_shared_correct by lia.
  rewrite drop_0, take_app_length. done.
Qed.

(** X2.  One pass is a stable partition of the results of [Pack], taken in
    the order of [sprites]: it returns at the first [ErrInputTooLarge];
    otherwise every sprite is tried once, the sprites [Pack] answered
    [ErrOutOfRoom] for are appended to [incompleteSprites] and all others,
    those of any other error included, to [completedSprites]. *)
Theorem pass_partition (packer : P) (l c i : list sprite) :
  let trace := pack_trace packer l in
  match pack_pass packer l c i with
  | Aborted _ =>
      exists r, last trace = Some r /\ r.2 = Some ErrInputTooLarge
  | Packed _ c' i' =>
      Forall (fun r => r.2 <> Some ErrInputTooLarge) trace /\
      length trace = length l /\
      c' = c ++ (filter (fun r => r.2 <> Some ErrOutOfRoom) trace).*1 /\
      i' = i ++ (filter (fun r => r.2 = Some ErrOutOfRoom) trace).*1
  end.
Proof.
  revert packer c i. induction l as [|s l IH]; intros packer c i; simpl.
  - by rewrite !app_nil_r.
  - destruct (Pack packer s) as [[pk s'] err] eqn:Hp.
    destruct err as [[| |msg]|].
    + rewrite bool_decide_eq_true_2 by done. simpl. by eexists.
    + rewrite bool_decide_eq_false_2 by done.
      specialize (IH pk c (i ++ [s'])).
      destruct (pack_pass pk l c (i ++ [s'])) as [pk'|pk' c' i'].
      * destruct IH as (r & Hl & Hr). exists r. split; [|done].
        destruct (pack_trace pk l); [done|]. done.
      * destruct IH as (Hall & Hlen & -> & ->). split_and!.
        -- constructor; [done|done].
        -- simpl. by rewrite Hlen.
        -- rewrite filter_cons_False by (simpl; by intros []). done.
        -- rewrite filter_cons_True by done. simpl. by rewrite <- app_assoc.
    + rewrite bool_decide_eq_false_2 by done.
      specialize (IH pk (c ++ [s']) i).
      destruct (pack_pass pk l (c ++ [s']) i) as [pk'|pk' c' i'].
      * destruct IH as (r & Hl & Hr). exists r. split; [|done].
        destruct (pack_trace pk l); [done|]. done.
      * destruct IH as (Hall & Hlen & -> & ->). split_and!.
        -- constructor; [done|done].
        -- simpl. by rewrite Hlen.
        -- rewrite filter_cons_True by done. simpl. by rewrite <- app_assoc.
        -- rewrite filter_cons_False by done. done.
    + rewrite bool_decide_eq_false_2 by done.
      specialize (IH pk (c ++ [s']) i).
      destruct (pack_pass pk l (c ++ [s']) i) as [pk'|pk' c' i'].
      * destruct IH as (r & Hl & Hr). exists r. split; [|done].
        destruct (pack_trace pk l); [done|]. done.
      * destruct IH as (Hall & Hlen & -> & ->). split_and!.
        -- constructor; [done|done].
        -- simpl. by rewrite Hlen.
        -- rewrite filter_cons_True by done. simpl. by rewrite <- app_assoc.
        -- rewrite filter_cons_False by done. done.
Qed.

End Passes.

(** ** Conservation and progress *)

Section RunCases.

Context {P : Type} `{BinPacker P}.

Lemma Run_cases sched fuel ctx p out :
  Run sched fuel ctx p = Some out ->
  (exists err, out = mkOutcome (Some err) [] /\
     (err ∈ [errors_New "Context must not be nil"; errors_New "Params must not be nil";
             errors_New "Invalid 'Format' parameter"; errors_New "Input must not be nil";
             errors_New "Output must not be nil"] \/
      exists q input, p = Some q /\ Input q = Some input /\
        readAssetStream (decoding sched) input (Padding q)
          (Scale (applySensibleDefaults q)) = inl err)) \/
  (exists q input output sprites0,
     p = Some q /\ ctx <> None /\ IsValid (Format_ q) = true /\
     Input q = Some input /\ Output q = Some output /\
     readAssetStream (decoding sched) input (Padding q) (Scale (applySensibleDefaults q))
       = inr sprites0 /\
     pack_and_output (arrivals sched) fuel (applySensibleDefaults q) output sprites0
       = Some out).
Proof.
  intros Hrun.
  destruct ctx as [c|];
    [|simpl in Hrun; simplify_eq; left; eexists; split; [done|left; set_solver]].
  destruct p as [q|];
    [|simpl in Hrun; simplify_eq; left; eexists; split; [done|left; set_solver]].
  destruct (IsValid (Format_ q)) eqn:Hv;
    [|unfold Run in Hrun; rewrite Hv in Hrun; simpl in Hrun; simplify_eq;
      left; eexists; split; [done|left; set_solver]].
  destruct (Input q) as [input|] eqn:Hi;
    [|unfold Run, validateRequiredParameters in Hrun; rewrite Hv, Hi in Hrun;
      simpl in Hrun; simplify_eq; left; eexists; split; [done|left; set_solver]].
  destruct (Output q) as [output|] eqn:Ho;
    [|unfold Run, validateRequiredParameters in Hrun; rewrite Hv, Hi, Ho in Hrun;
      simpl in Hrun; simplify_eq; left; eexists; split; [done|left; set_solver]].
  rewrite (Run_stages _ _ _ _ _ _ Hv Hi Ho) in Hrun.
  destruct (readAssetStream (decoding sched) input (Padding q)
              (Scale (applySensibleDefaults q))) as [err|sprites0] eqn:Hr.
  - simplify_eq. left. eexists. split; [done|]. right. by exists q, input.
  - right. exists q, input, output, sprites0. split_and!; done.
Qed.

End RunCases.

Section Conservation.

Context {P : Type} `{BinPacker P}.
Context {A : Type} (f : sprite -> A).
Hypothesis Pack_keeps : forall (packer : P) (s : sprite), f (Pack packer s).1.2 = f s.

Lemma pack_pass_keeps packer l c i packer' c' i' :
  pack_pass packer l c i = Packed packer' c' i' ->
  map f c' ++ map f i' ≡ₚ map f c ++ map f i ++ map f l.
Proof using Pack_keeps.
  revert packer c i. induction l as [|s l IH]; intros packer c i Hp; simpl in Hp.
  - simplify_eq. simpl. by rewrite app_nil_r.
  - pose proof (Pack_keeps packer s) as Hs.
    destruct (Pack packer s) as [[pk s'] [[| |msg]|]]; try done;
      apply IH in Hp; rewrite Hp, ?map_app; simpl in *; rewrite Hs.
    + by rewrite <- !app_assoc.
    + rewrite <- !app_assoc. simpl. apply Permutation_app_head, Permutation_middle.
    + rewrite <- !app_assoc. simpl. apply Permutation_app_head, Permutation_middle.
Qed.

Lemma placed_snoc params ts index c :
  placed (ts ++ [output_task params (new_atlas params index c)]) = placed ts ++ c.
Proof.
  unfold placed. rewrite map_app, concat_app. simpl. rewrite app_nil_r.
  unfold output_task. by destruct (CombineDescFiles params).
Qed.

Lemma iteration_keeps params total st :
  match iteration params total st with
  | inl (Break ts _) => map f (placed ts) ≡ₚ map f (placed (tasks st)) ++ map f (sprites st)
  | inl (Return _ _) => True
  | inr st' =>
      map f (placed (tasks st')) ++ map f (sprites st')
      ≡ₚ map f (placed (tasks st)) ++ map f (sprites st)
  end.
Proof using Pack_keeps.
  destruct (iteration_cases params total st) as
    [(ts' & -> & _)|[Hlim [(pk & _ & ->)|(pk & c & i & Hp)]]]; try done.
  rewrite (iteration_packed _ _ _ _ _ _ Hlim Hp).
  apply pack_pass_keeps in Hp. simpl in Hp.
  destruct (length i =? 0)%nat eqn:E0; [|destruct (length i =? total)%nat]; try done.
  - apply Nat.eqb_eq in E0. destruct i; [|done]. simpl in Hp. rewrite app_nil_r in Hp.
    by rewrite placed_snoc, map_app, Hp.
  - simpl. by rewrite placed_snoc, map_app, <- app_assoc, Hp.
Qed.

Lemma passes_keeps params total st0 k st :
  passes k params total st0 = Some st ->
  map f (placed (tasks st)) ++ map f (sprites st)
  ≡ₚ map f (placed (tasks st0)) ++ map f (sprites st0).
Proof using Pack_keeps.
  revert st. induction k as [|k IH]; intros st Hst.
  - simpl in Hst. by simplify_eq.
  - apply passes_S in Hst as (st1 & Hst1 & Hit).
    pose proof (iteration_keeps params total st1) as Hkeep. rewrite Hit in Hkeep.
    rewrite Hkeep. by apply IH.
Qed.

Lemma break_keeps fuel params total st0 ts da :
  pack_loop fuel params total st0 = Some (Break ts da) ->
  map f (placed ts) ≡ₚ map f (placed (tasks st0)) ++ map f (sprites st0).
Proof using Pack_keeps.
  intros He. apply pack_loop_passes in He as (k & st & _ & Hst & Hit).
  pose proof (iteration_keeps params total st) as Hkeep. rewrite Hit in Hkeep.
  rewrite Hkeep. by eapply passes_keeps.
Qed.

(** X3.  No sprite is lost or packed twice.  With a packer that leaves a
    sprite recognisable (by [f]), the sprites of the atlases started so far
    together with the sprites still to pack are, at the head of every
    iteration, the sprites the loop began with; when the loop is left by
    [break] the atlases hold each of them exactly once. *)
Theorem every_sprite_in_one_atlas (params : Params) (sprites0 : list sprite) :
  let total := length sprites0 in
  let init := mkLoopState sprites0 0 [] [] in
  (forall k st, passes k params total init = Some st ->
     map f (placed (tasks st)) ++ map f (sprites st) ≡ₚ map f sprites0) /\
  (forall fuel ts da, pack_loop fuel params total init = Some (Break ts da) ->
     map f (placed ts) ≡ₚ map f sprites0).
Proof using Pack_keeps.
  intros total init. split.
  - intros k st Hst. by rewrite (passes_keeps _ _ _ _ _ Hst).
  - intros fuel ts da He. by rewrite (break_keeps _ _ _ _ _ _ He).
Qed.

(** X4.  A run that returns [nil] has packed everything: with a packer
    that leaves a sprite recognisable (by [f]), the atlases of the
    goroutines it started hold the sprites [readAssetStream] returned,
    each exactly once. *)
Theorem success_packs_everything (sched : run_schedule) (fuel : nat)
  (ctx : option Context) (p : Params) (out : outcome) :
  Run sched fuel ctx (Some p) = Some out ->
  returned out = None ->
  exists input sprites0,
    Input p = Some input /\
    readAssetStream (decoding sched) input (Padding p) (Scale (applySensibleDefaults p))
      = inr sprites0 /\
    map f (placed (started out)) ≡ₚ map f sprites0.
Proof using Pack_keeps.
  intros Hrun Hnil.
  destruct (Run_cases _ _ _ _ _ Hrun) as
    [(err & -> & _)|(q & input & output & sprites0 & Hq & _ & _ & Hi & _ & Hr & Hout)];
    [done|].
  simplify_eq. exists input, sprites0. split; [done|]. split; [done|].
  unfold pack_and_output in Hout.
  destruct (pack_loop fuel (applySensibleDefaults q) (length (sort_ByArea sprites0))
              (mkLoopState (sort_ByArea sprites0) 0 [] [])) as [[err ts|ts da]|] eqn:He;
    [by simplify_eq| |done].
  apply break_keeps in He. simpl in He.
  injection Hout as <-. cbn [started].
  assert (placed (if (0 <? length da)%nat then ts ++ [GoOutputDesc da] else ts) = placed ts)
    as ->.
  { destruct (0 <? length da)%nat; [|done].
    unfold placed. rewrite map_app, concat_app. simpl. by rewrite app_nil_r. }
  rewrite He. by rewrite sort_ByArea_perm.
Qed.

End Conservation.

Section Progress.

Context {P : Type} `{BinPacker P}.

Lemma passes_snoc k params total st st1 st2 :
  passes k params total st = Some st1 -> iteration params total st1 = inr st2 ->
  passes (S k) params total st = Some st2.
Proof.
  revert st. induction k as [|k IH]; intros st Hk Hit.
  - simpl in Hk. simplify_eq. simpl. by rewrite Hit.
  - change (passes (S (S k)) params total st) with
      (match iteration params total st with
       | inl _ => None | inr st => passes (S k) params total st end).
    simpl in Hk. destruct (iteration params total st); [done|]. by apply IH.
Qed.

(** X5.  If every pass over a non-empty list places a sprite, the loop is
    left within one iteration per sprite and one more, and not with
    [ErrOutOfRoom]. *)
Theorem progress_terminates (params : Params) (sprites0 : list sprite) :
  let total := length sprites0 in
  let init := mkLoopState sprites0 0 [] [] in
  (forall k st packer completed incomplete,
     passes k params total init = Some st -> sprites st <> [] ->
     pack_pass (NewBinPacker (Width params) (Height params)) (sprites st) [] []
       = Packed packer completed incomplete ->
     completed <> []) ->
  exists e, pack_loop (S total) params total init = Some e /\
    forall ts, e <> Return ErrOutOfRoom ts.
Proof.
  intros total init Hprog.
  assert (Hgen : forall m k st, passes k params total init = Some st ->
            (length (sprites st) <= m)%nat ->
            exists e, pack_loop (S m) params total st = Some e /\
              forall ts, e <> Return ErrOutOfRoom ts).
  { induction m as [|m IH]; intros k st Hk Hlen.
    - simpl. destruct (iteration_cases params total st) as
        [(ts' & -> & _)|[Hlim [(pk & _ & ->)|(pk & c & i & Hp)]]];
        [eexists; split; [done|discriminate]..|].
      rewrite (iteration_packed _ _ _ _ _ _ Hlim Hp).
      apply pack_pass_length in Hp. simpl in Hp.
      assert (length i = 0)%nat as -> by lia. simpl.
      eexists; split; [done|discriminate].
    - cbn [pack_loop].
      destruct (iteration_cases params total st) as
        [(ts' & -> & _)|[Hlim [(pk & _ & ->)|(pk & c & i & Hp)]]];
        [eexists; split; [done|discriminate]..|].
      pose proof (iteration_packed _ total _ _ _ _ Hlim Hp) as Hit.
      pose proof (pack_pass_length _ _ _ _ _ _ _ Hp) as Hl. simpl in Hl.
      pose proof (passes_sprites _ _ _ _ _ Hk) as Htot. simpl in Htot.
      destruct (length i =? 0)%nat eqn:E0.
      { rewrite Hit. eexists; split; [done|discriminate]. }
      apply Nat.eqb_neq in E0.
      assert (sprites st <> []) as Hne by (intros Hs; rewrite Hs in Hl; simpl in Hl; lia).
      pose proof (Hprog _ _ _ _ _ Hk Hne Hp) as Hc.
      assert (0 < length c)%nat by (destruct c; [done|simpl; lia]).
      destruct (length i =? total)%nat eqn:Et.
      { apply Nat.eqb_eq in Et. fold total in Htot. lia. }
      rewrite Hit. cbv zeta in Hit.
      apply (IH (S k)); [by eapply passes_snoc|]. simpl. lia. }
  apply (Hgen total 0%nat init); [done|]. simpl. lia.
Qed.

End Progress.

(** ** Edge cases of [Run] *)

Lemma fan_in_nothing {A} (order : list nat) (queues : list (list A)) :
  Forall (fun q => q = []) queues -> fan_in order queues = ([], queues).
Proof.
  intros Hq. induction order as [|k order IH]; simpl; [done|].
  destruct (queues !! k) as [[|v q]|] eqn:Hk; try done.
  rewrite Forall_lookup in Hq. by apply Hq in Hk.
Qed.

Lemma distribute_nothing pulls queues : distribute pulls [] queues = queues.
Proof. by destruct pulls. Qed.

Lemma readAssetStream_empty sched padding scale :
  readAssetStream sched (mkAssetStreamer [] None) padding scale = inr [].
Proof.
  unfold readAssetStream, published. simpl. rewrite distribute_nothing.
  rewrite fan_in_nothing; [done|]. repeat constructor.
Qed.

Section Empty.

Context {P : Type} `{BinPacker P}.

(** X6.  A source that yields no asset is no error: [Run] packs nothing,
    starts the goroutine of one atlas without sprites (and, when the
    descriptors are combined, the descriptor goroutine for it) and returns
    what these deliver. *)
Theorem no_assets_one_atlas (sched : run_schedule) (fuel : nat) (ctx : Context)
  (p : Params) (output : Outputter) :
  IsValid (Format_ p) = true ->
  Input p = Some (mkAssetStreamer [] None) ->
  Output p = Some output ->
  let params := applySensibleDefaults p in
  let a := new_atlas params 1 [] in
  let ts := output_task params a ::
            (if CombineDescFiles params then [GoOutputDesc [a]] else []) in
  Run sched (S fuel) (Some ctx) (Some p)
  = Some (mkOutcome
            (first_error
               (fan_in (arrivals sched)
                  (map (sends output (Template (Format_ params))) ts)).1)
            ts).
Proof.
  intros Hv Hi Ho params a ts.
  rewrite (Run_stages _ _ _ _ _ _ Hv Hi Ho), readAssetStream_empty.
  unfold pack_and_output. cbn [sort_ByArea foldl rev length pack_loop].
  assert ((0 <? MaxAtlases (applySensibleDefaults p))
          && (0 =? MaxAtlases (applySensibleDefaults p)) = false) as Hlim.
  { apply andb_false_iff. destruct (Z.eq_dec 0 (MaxAtlases (applySensibleDefaults p))).
    - left. apply Z.ltb_ge. lia.
    - right. by apply Z.eqb_neq. }
  erewrite iteration_packed; [|exact Hlim|reflexivity].
  cbn [length Nat.eqb app tasks descAtlases totalNumberOfAtlases].
  change (incr 0) with 1. fold params. fold a.
  unfold output_task in *. subst ts.
  destruct (CombineDescFiles params); reflexivity.
Qed.

End Empty.

Section Collect.

Context {P : Type} `{BinPacker P}.

Lemma first_error_None received :
  first_error received = None <-> Forall (fun v => v = None) received.
Proof.
  induction received as [|[e|] l IH]; simpl.
  - split; [constructor|done].
  - split; [done|]. by inversion 1.
  - rewrite IH. split; [by constructor|]. by inversion 1.
Qed.

Lemma first_error_Some received err :
  first_error received = Some err -> Some err ∈ received.
Proof.
  induction received as [|[e|] l IH]; simpl; [done| |].
  - intros; simplify_eq. by left.
  - intros. right. by apply IH.
Qed.

(** X7.  Once the loop is left by [break] the run returns under every order
    of arrival: an error it returns is one a goroutine has sent; it returns
    [nil] when every write succeeds; and when it returns [nil] after every
    goroutine has delivered all it sends, every write has succeeded. *)
Theorem collected_result (arrivals : list nat) (fuel : nat) (params : Params)
  (output : Outputter) (sprites0 : list sprite) (ts : list task) (da : list atlas) :
  pack_loop fuel params (length (sort_ByArea sprites0))
    (mkLoopState (sort_ByArea sprites0) 0 [] []) = Some (Break ts da) ->
  let all := if (0 <? length da)%nat then ts ++ [GoOutputDesc da] else ts in
  let sent := map (sends output (Template (Format_ params))) all in
  exists r,
    pack_and_output arrivals fuel params output sprites0 = Some (mkOutcome r all) /\
    (forall err, r = Some err -> Some err ∈ concat sent) /\
    (Forall (fun v => v = None) (concat sent) -> r = None) /\
    (drained arrivals sent = true -> r = None -> Forall (fun v => v = None) (concat sent)).
Proof.
  intros He all sent. unfold pack_and_output. rewrite He.
  fold all. cbv zeta. fold sent.
  eexists. split; [reflexivity|].
  pose proof (fan_in_perm arrivals sent) as Hp.
  split_and!.
  - intros err Herr. apply first_error_Some in Herr.
    rewrite Hp. apply elem_of_app. by left.
  - intros Hall. apply first_error_None.
    rewrite Hp in Hall. by apply Forall_app in Hall as [? _].
  - intros Hd Hnone. apply first_error_None in Hnone.
    unfold drained in Hd. rewrite forallb_forall in Hd.
    assert (concat (fan_in arrivals sent).2 = []) as Hnil.
    { apply concat_all_nil. intros q Hq. apply Hd, bool_decide_eq_true in Hq. done. }
    rewrite Hp, Hnil, app_nil_r. done.
Qed.

End Collect.

Section DefaultsAgain.

(** X8.  [applySensibleDefaults] settles: applied to its own result it
    changes nothing, it leaves the outcome of the validation and the
    validity of the format as they were, and afterwards the name, the
    width, the height and the scale are not the zero value and the naming
    function is set. *)
Theorem defaults_settle (p : Params) :
  let q := applySensibleDefaults p in
  applySensibleDefaults q = q /\
  validateRequiredParameters q = validateRequiredParameters p /\
  IsValid (Format_ q) = IsValid (Format_ p) /\
  Name q <> "" /\ Width q <> 0 /\ Height q <> 0 /\
  PrimFloat.eqb (Scale q) 0 = false /\ NameFormatter_ q <> None.
Proof.
  intros q. subst q. split; [apply applySensibleDefaults_idem|].
  rewrite applySensibleDefaults_fields. unfold validateRequiredParameters.
  cbn [Input Output Format_ Name Width Height Scale NameFormatter_].
  split_and!; try done.
  - destruct (bool_decide (Name p = "")) eqn:E; [done|]. by apply bool_decide_eq_false in E.
  - destruct (Width p =? 0) eqn:E; [done|]. by apply Z.eqb_neq in E.
  - destruct (Height p =? 0) eqn:E; [done|]. by apply Z.eqb_neq in E.
  - destruct (PrimFloat.eqb (Scale p) 0) eqn:E; [done|]. done.
Qed.

End DefaultsAgain.

(** ** File names and the decode pipeline *)

Lemma itoa_inj (n m : Z) : itoa n = itoa m -> n = m.
Proof.
  unfold itoa. intros H.
  assert (Hn : forall z, Z.to_int z <> Decimal.Pos Decimal.Nil /\
                         Z.to_int z <> Decimal.Neg Decimal.Nil).
  { intros [|p|p]; simpl; split; try discriminate;
      intros [= Hp]; by apply DecimalPos.Unsigned.to_uint_nonnil in Hp. }
  apply DecimalZ.to_int_inj.
  apply (f_equal NilZero.int_of_string) in H.
  rewrite !NilZero.isi in H by apply Hn. congruence.
Qed.

Lemma string_length_app (s t : string) :
  String.length (s +:+ t) = (String.length s + String.length t)%nat.
Proof. induction s as [|c s IH]; simpl; [done|]. by rewrite IH. Qed.

Lemma string_app_inj_r (s1 s2 t : string) : s1 +:+ t = s2 +:+ t -> s1 = s2.
Proof.
  revert s2. induction s1 as [|c s1 IH]; intros [|d s2] H.
  - done.
  - apply (f_equal String.length) in H. rewrite !string_length_app in H. simpl in H. lia.
  - apply (f_equal String.length) in H. rewrite !string_length_app in H. simpl in H. lia.
  - change (String c (s1 +:+ t) = String d (s2 +:+ t)) in H.
    injection H as -> H. f_equal. by apply IH.
Qed.

Lemma DefaultNameFormatter_inj name : Inj eq eq (DefaultNameFormatter name).
Proof.
  intros n m H. unfold DefaultNameFormatter in H.
  apply String.app_inj in H. apply String.app_inj in H. by apply itoa_inj.
Qed.

Section Names.

Context {P : Type} `{BinPacker P}.

(** X9.  Under the default naming function no two atlases of a run are
    written to the same image file, as long as fewer than [2^63] atlases
    are started; unless the descriptors are combined, the same holds of
    the descriptor files. *)
Theorem default_names_distinct (sched : run_schedule) (fuel : nat)
  (ctx : option Context) (p : Params) (out : outcome) (i j : nat) (ti tj : task)
  (a b : atlas) :
  NameFormatter_ p = None ->
  Run sched fuel ctx (Some p) = Some out ->
  started out !! i = Some ti -> started out !! j = Some tj ->
  carries ti a -> carries tj b ->
  i <> j -> Z.of_nat i < max_int -> Z.of_nat j < max_int ->
  ImageFilename a <> ImageFilename b /\
  (CombineDescFiles p = false -> DescFilename a <> DescFilename b).
Proof.
  intros Hnf Hrun Hi Hj Ha Hb Hij Hli Hlj.
  pose proof (Run_names _ _ _ _ _ _ _ Hrun Hi) as Ni.
  pose proof (Run_names _ _ _ _ _ _ _ Hrun Hj) as Nj.
  cbv zeta in Ni, Nj.
  assert (Hf : formatter (applySensibleDefaults p) = DefaultNameFormatter).
  { unfold formatter. rewrite applySensibleDefaults_fields. simpl. by rewrite Hnf. }
  assert (Hc : CombineDescFiles (applySensibleDefaults p) = CombineDescFiles p).
  { by rewrite applySensibleDefaults_fields. }
  assert (Na : named (applySensibleDefaults p) (wrap (Z.of_nat i + 1)) a)
    by (destruct Ha as [->| ->]; exact Ni).
  assert (Nb : named (applySensibleDefaults p) (wrap (Z.of_nat j + 1)) b)
    by (destruct Hb as [->| ->]; exact Nj).
  clear Ni Nj. unfold named in Na, Nb. cbv zeta in Na, Nb.
  rewrite Hf, Hc in Na, Nb. destruct Na as [Ia Da], Nb as [Ib Db].
  assert (Hw : wrap (Z.of_nat i + 1) <> wrap (Z.of_nat j + 1)).
  { rewrite !wrap_small by (unfold is_int, min_int, max_int in *; lia). lia. }
  split.
  - rewrite Ia, Ib. intros E. apply string_app_inj_r in E.
    by apply DefaultNameFormatter_inj in E.
  - intros Hcf. rewrite Hcf in Da, Db. rewrite Da, Db. intros E.
    apply string_app_inj_r in E. by apply DefaultNameFormatter_inj in E.
Qed.

End Names.

Lemma concat_alter_submseteq {A} (queues : list (list A)) k a :
  concat (alter (fun q => q ++ [a]) k queues) ⊆+ a :: concat queues.
Proof.
  revert k. induction queues as [|q queues IH]; intros k.
  - destruct k; simpl; apply submseteq_nil_l.
  - destruct k as [|k]; simpl.
    + apply Permutation_submseteq. rewrite <- app_assoc. simpl.
      by rewrite <- Permutation_middle.
    + change (list_alter ?f k queues) with (alter f k queues).
      etrans; [apply submseteq_skips_l, IH|].
      apply Permutation_submseteq. by rewrite <- Permutation_middle.
Qed.

Lemma distribute_submseteq (pulls : list nat) (assets : list Asset) queues :
  concat (distribute pulls assets queues) ⊆+ concat queues ++ assets.
Proof.
  revert assets queues. induction pulls as [|k pulls IH]; intros assets queues; simpl.
  - by apply submseteq_inserts_r.
  - destruct assets as [|a assets]; [by apply submseteq_inserts_r|].
    etrans; [apply IH|]. etrans; [apply submseteq_skips_r, concat_alter_submseteq|].
    apply Permutation_submseteq. simpl. by rewrite <- Permutation_middle.
Qed.

Lemma fmap_submseteq {A B} (f : A -> B) (l k : list A) : l ⊆+ k -> map f l ⊆+ map f k.
Proof.
  induction 1; simpl; try by constructor.
  etrans; eauto.
Qed.

Lemma omap_submseteq {A B} (f : A -> option B) (l k : list A) :
  l ⊆+ k -> omap f l ⊆+ omap f k.
Proof.
  induction 1 as [|a ? ? ? IH|a b ?|a ? ? ? IH|? ? ? ? IH1 ? IH2]; csimpl.
  - done.
  - destruct (f a); [by constructor|done].
  - destruct (f a), (f b); first [done | by constructor].
  - destruct (f a); [by constructor|done].
  - etrans; eauto.
Qed.

Lemma published_submseteq sched assets padding scale :
  (published sched assets padding scale).1 ⊆+ map (decode_body padding scale) assets.
Proof.
  unfold published.
  set (ins := distribute (pulls sched) assets (replicate numDecoders [])).
  pose proof (fan_in_perm (publishes sched) (map (decode padding scale) ins)) as Hp.
  etrans; [apply (submseteq_inserts_r
                    (concat (fan_in (publishes sched) (map (decode padding scale) ins)).2));
           reflexivity|].
  rewrite <- Hp.
  assert (concat (map (decode padding scale) ins) = map (decode_body padding scale) (concat ins))
    as ->.
  { rewrite concat_map. f_equal. apply map_ext. intros. apply decode_map. }
  apply fmap_submseteq. subst ins.
  etrans; [apply distribute_submseteq|].
  assert (concat (replicate numDecoders (@nil Asset)) = []) as -> by done. done.
Qed.

(** X10.  Whatever the goroutines of [readAssetStream] do, and whether or
    not every asset is decoded before the function returns, a list of
    sprites it returns holds, for each asset of the stream, at most as many
    sprites as the stream holds copies of that asset, and each is the
    sprite [decode] builds for it. *)
Theorem pipeline_never_duplicates (sched : decode_schedule) (stream : AssetStreamer)
  (padding : Z) (scale : float) (sprites : list sprite) :
  readAssetStream sched stream padding scale = inr sprites ->
  sprites ⊆+ omap (fun a => res_Sprite (decode_body padding scale a)) (stream_assets stream) /\
  map spr_Asset sprites ⊆+ stream_assets stream.
Proof.
  intros Hr. apply readAssetStream_inr in Hr as (_ & _ & -> & _).
  assert (Hs : omap res_Sprite (published sched (stream_assets stream) padding scale).1 ⊆+
               omap (fun a => res_Sprite (decode_body padding scale a)) (stream_assets stream)).
  { etrans; [apply omap_submseteq, published_submseteq|]. by rewrite omap_map. }
  split; [done|].
  etrans; [apply fmap_submseteq, Hs|].
  generalize (stream_assets stream). intros l.
  induction l as [|a l IH]; csimpl; [done|].
  destruct (res_Sprite (decode_body padding scale a)) as [s|] eqn:E.
  - simpl. assert (spr_Asset s = a) as ->.
    { unfold decode_body in E. destruct (Reader a) as [?|r]; [done|].
      destruct (image_DecodeConfig r); simpl in E; [done|]. by simplify_eq. }
    by constructor.
  - by constructor.
Qed.

(** ** Order and preconditions *)

Section Order.

Context {P : Type} `{BinPacker P}.
Context {A : Type} (f : sprite -> A).
Hypothesis Pack_keeps : forall (packer : P) (s : sprite), f (Pack packer s).1.2 = f s.

Lemma pack_pass_sublists packer l c i packer' c' i' :
  pack_pass packer l c i = Packed packer' c' i' ->
  exists dc di, map f c' = map f c ++ dc /\ map f i' = map f i ++ di /\
    dc `sublist_of` map f l /\ di `sublist_of` map f l.
Proof using Pack_keeps.
  revert packer c i. induction l as [|s l IH]; intros packer c i Hp; simpl in Hp.
  - simplify_eq. exists [], []. by rewrite !app_nil_r.
  - pose proof (Pack_keeps packer s) as Hs.
    destruct (Pack packer s) as [[pk s'] [[| |msg]|]]; try done;
      apply IH in Hp as (dc & di & Hc & Hi & Sc & Si); simpl in Hs;
      try rewrite map_app, <- app_assoc in Hc; try rewrite map_app, <- app_assoc in Hi;
      simpl in Hc, Hi; try rewrite Hs in Hc; try rewrite Hs in Hi.
    + exists dc, (f s :: di). split_and!; try done; by constructor.
    + exists (f s :: dc), di. split_and!; try done; by constructor.
    + exists (f s :: dc), di. split_and!; try done; by constructor.
Qed.

Lemma task_sprites_output params index c :
  task_sprites (output_task params (new_atlas params index c)) = c.
Proof. unfold output_task. by destruct (CombineDescFiles params). Qed.

Lemma iteration_order l0 params total st :
  in_order_of f l0 (sprites st) (tasks st) ->
  match iteration params total st with
  | inl (Break ts _) | inl (Return _ ts) =>
      Forall (fun t => map f (task_sprites t) `sublist_of` l0) ts
  | inr st' => in_order_of f l0 (sprites st') (tasks st')
  end.
Proof using Pack_keeps.
  intros [Hs Ht].
  destruct (iteration_cases params total st) as
    [(ts' & -> & -> & _)|[Hlim [(pk & _ & ->)|(pk & c & i & Hp)]]]; try done.
  rewrite (iteration_packed _ _ _ _ _ _ Hlim Hp).
  apply pack_pass_sublists in Hp as (dc & di & Hc & Hi & Sc & Si). simpl in Hc, Hi.
  assert (Forall (fun t => map f (task_sprites t) `sublist_of` l0)
            (tasks st ++ [output_task params
               (new_atlas params (incr (totalNumberOfAtlases st)) c)])) as Hts.
  { apply Forall_app. split; [done|]. constructor; [|done].
    rewrite task_sprites_output, Hc. by etrans. }
  destruct (length i =? 0)%nat; [done|]. destruct (length i =? total)%nat; [done|].
  split; [|done]. simpl. rewrite Hi. by etrans.
Qed.

(** X11.  The order of the sorted list is kept.  With a packer that leaves
    a sprite recognisable (by [f]), the sprites every iteration starts
    from, and the sprites of every atlas, follow one another as they do in
    the list the loop began with. *)
Theorem sorted_order_kept (params : Params) (sprites0 : list sprite) :
  let total := length sprites0 in
  let init := mkLoopState sprites0 0 [] [] in
  (forall k st, passes k params total init = Some st ->
     map f (sprites st) `sublist_of` map f sprites0 /\
     forall t, t ∈ tasks st -> map f (task_sprites t) `sublist_of` map f sprites0) /\
  (forall fuel e, pack_loop fuel params total init = Some e ->
     forall t, t ∈ match e with Return _ ts | Break ts _ => ts end ->
       map f (task_sprites t) `sublist_of` map f sprites0).
Proof using Pack_keeps.
  intros total init.
  assert (Hk : forall k st, passes k params total init = Some st ->
            in_order_of f (map f sprites0) (sprites st) (tasks st)).
  { induction k as [|k IH]; intros st Hst.
    - simpl in Hst. simplify_eq. split; simpl; [done|constructor].
    - apply passes_S in Hst as (st1 & Hst1 & Hit).
      pose proof (iteration_order _ params total st1 (IH _ Hst1)) as Ho.
      by rewrite Hit in Ho. }
  split.
  - intros k st Hst. destruct (Hk _ _ Hst) as [Hs Ht]. split; [done|].
    intros t Hin. rewrite Forall_forall in Ht. by apply Ht.
  - intros fuel e He t Hin. apply pack_loop_passes in He as (k & st & _ & Hst & Hit).
    pose proof (iteration_order _ params total st (Hk _ _ Hst)) as Ho.
    rewrite Hit in Ho. destruct e; rewrite Forall_forall in Ho; by apply Ho.
Qed.

End Order.

Section Gate.

Context {P : Type} `{BinPacker P}.

(** X12.  [Run] starts no output goroutine unless the context and the
    parameters are given, the format is valid, the input and the output
    are set, the source reports no error and no result delivered by the
    decoders carries one. *)
Theorem output_needs_clean_input (sched : run_schedule) (fuel : nat)
  (ctx : option Context) (p : option Params) (out : outcome) :
  Run sched fuel ctx p = Some out ->
  started out <> [] ->
  exists q input output sprites0,
    ctx <> None /\ p = Some q /\ IsValid (Format_ q) = true /\
    Input q = Some input /\ Output q = Some output /\
    stream_err input = None /\
    Forall (fun r => res_Err r = None)
      (published (decoding sched) (stream_assets input) (Padding q)
         (Scale (applySensibleDefaults q))).1 /\
    readAssetStream (decoding sched) input (Padding q) (Scale (applySensibleDefaults q))
      = inr sprites0 /\
    pack_and_output (arrivals sched) fuel (applySensibleDefaults q) output sprites0
      = Some out.
Proof.
  intros Hrun Hne.
  destruct ctx as [c|]; [|simpl in Hrun; by simplify_eq].
  destruct p as [q|]; [|simpl in Hrun; by simplify_eq].
  destruct (IsValid (Format_ q)) eqn:Hv;
    [|unfold Run in Hrun; rewrite Hv in Hrun; simpl in Hrun; by simplify_eq].
  destruct (Input q) as [input|] eqn:Hi;
    [|unfold Run, validateRequiredParameters in Hrun; rewrite Hv, Hi in Hrun;
      simpl in Hrun; by simplify_eq].
  destruct (Output q) as [output|] eqn:Ho;
    [|unfold Run, validateRequiredParameters in Hrun; rewrite Hv, Hi, Ho in Hrun;
      simpl in Hrun; by simplify_eq].
  rewrite (Run_stages _ _ _ _ _ _ Hv Hi Ho) in Hrun.
  destruct (readAssetStream (decoding sched) input (Padding q)
              (Scale (applySensibleDefaults q))) as [err|sprites0] eqn:Hr;
    [by simplify_eq|].
  exists q, input, output, sprites0.
  pose proof (readAssetStream_inr _ _ _ _ _ Hr) as (Hall & Hse & _).
  split_and!; done.
Qed.

End Gate.

(** ** The errors of a run *)

Lemma elem_of_concat {A} (v : A) (ls : list (list A)) :
  v ∈ concat ls -> exists l, v ∈ l /\ l ∈ ls.
Proof.
  induction ls as [|l ls IH]; simpl; [by intros ?%elem_of_nil|].
  intros [Hv|Hv]%elem_of_app.
  - exists l. split; [done|]. by left.
  - destruct (IH Hv) as (l' & ? & ?). exists l'. split; [done|]. by right.
Qed.

Section Errors.

Context {P : Type} `{BinPacker P}.

Lemma iteration_Return params total st err ts :
  iteration params total st = inl (Return err ts) ->
  err ∈ [too_many_atlases params; ErrInputTooLarge; ErrOutOfRoom].
Proof.
  intros Hit.
  destruct (iteration_cases params total st) as
    [(ts' & Hit' & _)|[Hlim [(pk & _ & Hit')|(pk & c & i & Hp)]]].
  - rewrite Hit' in Hit. simplify_eq. set_solver.
  - rewrite Hit' in Hit. simplify_eq. set_solver.
  - rewrite (iteration_packed _ _ _ _ _ _ Hlim Hp) in Hit.
    destruct (length i =? 0)%nat; [done|].
    destruct (length i =? total)%nat; [|done]. simplify_eq. set_solver.
Qed.

(** X13.  An error [Run] returns is one of the five configuration errors,
    the error [readAssetStream] returned, one of the three errors of the
    loop (the atlas limit, [ErrInputTooLarge], [ErrOutOfRoom]), or an
    error an output goroutine it started has sent. *)
Theorem returned_error_sources (sched : run_schedule) (fuel : nat)
  (ctx : option Context) (p : option Params) (out : outcome) (err : error) :
  Run sched fuel ctx p = Some out ->
  returned out = Some err ->
  err ∈ [errors_New "Context must not be nil"; errors_New "Params must not be nil";
         errors_New "Invalid 'Format' parameter"; errors_New "Input must not be nil";
         errors_New "Output must not be nil"] \/
  (exists q input, p = Some q /\ Input q = Some input /\
     readAssetStream (decoding sched) input (Padding q)
       (Scale (applySensibleDefaults q)) = inl err) \/
  (exists q, p = Some q /\
     err ∈ [too_many_atlases (applySensibleDefaults q); ErrInputTooLarge; ErrOutOfRoom]) \/
  (exists q output t, p = Some q /\ Output q = Some output /\ t ∈ started out /\
     Some err ∈ sends output (Template (Format_ q)) t).
Proof.
  intros Hrun Herr.
  destruct (Run_cases _ _ _ _ _ Hrun) as
    [(err' & -> & Hsrc)|(q & input & output & sprites0 & -> & _ & _ & Hi & Ho & Hr & Hout)].
  { simpl in Herr. simplify_eq. destruct Hsrc as [?|?]; auto. }
  right. right. unfold pack_and_output in Hout.
  destruct (pack_loop fuel (applySensibleDefaults q) (length (sort_ByArea sprites0))
              (mkLoopState (sort_ByArea sprites0) 0 [] [])) as [[e ts|ts da]|] eqn:He;
    [| |done].
  - left. simplify_eq. simpl in Herr. simplify_eq.
    apply pack_loop_passes in He as (k & st & _ & _ & Hit).
    exists q. split; [done|]. by eapply iteration_Return.
  - right. simplify_eq. cbn [returned started] in *.
    apply first_error_Some in Herr.
    set (all := if (0 <? length da)%nat then ts ++ [GoOutputDesc da] else ts) in *.
    assert (Hin : Some err ∈
              concat (map (sends output (Template (Format_ (applySensibleDefaults q))))
                        all)).
    { rewrite (fan_in_perm (arrivals sched)). apply elem_of_app. by left. }
    apply elem_of_concat in Hin as (l & Hl & Hin).
    apply list_elem_of_fmap in Hin as (t & -> & Ht).
    exists q, output, t. split_and!; try done.
    rewrite applySensibleDefaults_fields in Hl. exact Hl.
Qed.

End Errors.

(** ** The further properties on concrete runs *)

Lemma Guillotine_pack_keeps {A : Type} (f : sprite -> A) :
  (forall s px py, f (Guillotine.place s px py) = f s) ->
  forall (c : Guillotine.canvas) (s : sprite), f (Pack c s).1.2 = f s.
Proof.
  intros Hf c s. simpl. unfold Guillotine.pack.
  destruct ((Guillotine.canvas_w c <? w s) || (Guillotine.canvas_h c <? h s)); [done|].
  destruct (Size s) as [bw bh].
  destruct (Guillotine.best_fit bw bh (Guillotine.free c) 0 None) as [[i r]|]; [|done].
  simpl. apply Hf.
Qed.

Lemma every_sprite_in_one_atlas_witness :
  let sprites0 := sort_ByArea (decoded 0 1 two_sizes) in
  exists ts da,
    pack_loop (P := Guillotine.canvas) 5 (packed 0 false) (length sprites0)
      (mkLoopState sprites0 0 [] []) = Some (Break ts da) /\
    map path (placed ts) ≡ₚ map path sprites0.
Proof.
  intros sprites0.
  let r := eval vm_compute in
    (pack_loop (P := Guillotine.canvas) 5 (packed 0 false) (length sprites0)
       (mkLoopState sprites0 0 [] [])) in
  match r with
  | Some (Break ?ts ?da) => pose (tasks0 := ts); pose (atlases := da)
  end.
  assert (Hloop : pack_loop (P := Guillotine.canvas) 5 (packed 0 false) (length sprites0)
                    (mkLoopState sprites0 0 [] []) = Some (Break tasks0 atlases))
    by (vm_compute; reflexivity).
  exists tasks0, atlases. split; [exact Hloop|].
  exact (proj2 (every_sprite_in_one_atlas (P := Guillotine.canvas) path
                  (Guillotine_pack_keeps path (fun _ _ _ => eq_refl))
                  (packed 0 false) sprites0) 5%nat tasks0 atlases Hloop).
Defined.

Lemma sorted_order_kept_witness :
  let sprites0 := sort_ByArea (decoded 0 1 two_sizes) in
  exists ts da,
    pack_loop (P := Guillotine.canvas) 5 (packed 0 false) (length sprites0)
      (mkLoopState sprites0 0 [] []) = Some (Break ts da) /\
    forall t, t ∈ ts -> map path (task_sprites t) `sublist_of` map path sprites0.
Proof.
  intros sprites0.
  let r := eval vm_compute in
    (pack_loop (P := Guillotine.canvas) 5 (packed 0 false) (length sprites0)
       (mkLoopState sprites0 0 [] [])) in
  match r with
  | Some (Break ?ts ?da) => pose (tasks0 := ts); pose (atlases := da)
  end.
  assert (Hloop : pack_loop (P := Guillotine.canvas) 5 (packed 0 false) (length sprites0)
                    (mkLoopState sprites0 0 [] []) = Some (Break tasks0 atlases))
    by (vm_compute; reflexivity).
  exists tasks0, atlases. split; [exact Hloop|].
  exact (proj2 (sorted_order_kept (P := Guillotine.canvas) path
                  (Guillotine_pack_keeps path (fun _ _ _ => eq_refl))
                  (packed 0 false) sprites0) 5%nat (Break tasks0 atlases) Hloop).
Defined.

Lemma progress_terminates_witness :
  let sprites0 := sort_ByArea (decoded 0 1 two_sizes) in
  exists e,
    pack_loop (P := Guillotine.canvas) (S (length sprites0)) (packed 0 false)
      (length sprites0) (mkLoopState sprites0 0 [] []) = Some e /\
    forall ts, e <> Return ErrOutOfRoom ts.
Proof.
  intros sprites0.
  apply (progress_terminates (P := Guillotine.canvas) (packed 0 false) sprites0).
  intros k st pk c i Hk Hne Hp.
  destruct k as [|[|k]].
  - vm_compute in Hk. injection Hk as <-. vm_compute in Hp.
    injection Hp as _ <- _. discriminate.
  - vm_compute in Hk. injection Hk as <-. vm_compute in Hp.
    injection Hp as _ <- _. discriminate.
  - vm_compute in Hk. discriminate.
Defined.

Lemma no_assets_one_atlas_witness :
  Run (P := Guillotine.canvas) (in_order 0) 1 (Some tt) (Some (unset []))
  = Some (mkOutcome None [GoOutput (new_atlas (applySensibleDefaults (unset [])) 1 [])]).
Proof.
  exact (no_assets_one_atlas (P := Guillotine.canvas) (in_order 0) 0 tt (unset [])
           recorder eq_refl eq_refl eq_refl).
Defined.

Lemma collected_result_witness :
  exists all,
    pack_and_output (P := Guillotine.canvas) (arrivals (in_order 2)) 5 (packed 0 true)
      recorder (decoded 0 1 two_sizes) = Some (mkOutcome None all) /\
    length all = 3%nat.
Proof.
  let r := eval vm_compute in
    (pack_loop (P := Guillotine.canvas) 5 (packed 0 true)
       (length (sort_ByArea (decoded 0 1 two_sizes)))
       (mkLoopState (sort_ByArea (decoded 0 1 two_sizes)) 0 [] [])) in
  match r with
  | Some (Break ?ts ?da) => pose (tasks0 := ts); pose (atlases := da)
  end.
  assert (Hloop : pack_loop (P := Guillotine.canvas) 5 (packed 0 true)
                    (length (sort_ByArea (decoded 0 1 two_sizes)))
                    (mkLoopState (sort_ByArea (decoded 0 1 two_sizes)) 0 [] [])
                  = Some (Break tasks0 atlases)) by (vm_compute; reflexivity).
  destruct (collected_result (P := Guillotine.canvas) (arrivals (in_order 2)) 5
              (packed 0 true) recorder (decoded 0 1 two_sizes) tasks0 atlases Hloop)
    as (r & Hrun & _ & Hnone & _).
  rewrite Hnone in Hrun by (vm_compute; repeat constructor).
  eexists. split; [exact Hrun|]. reflexivity.
Defined.

Lemma default_names_distinct_witness :
  exists out a b,
    Run (P := Guillotine.canvas) (in_order 2) 5 (Some tt)
      (Some (small_canvas two_sizes 0 0 false)) = Some out /\
    started out = [GoOutput a; GoOutput b] /\
    ImageFilename a <> ImageFilename b /\ DescFilename a <> DescFilename b.
Proof.
  let r := eval vm_compute in
    (Run (P := Guillotine.canvas) (in_order 2) 5 (Some tt)
       (Some (small_canvas two_sizes 0 0 false))) in
  match r with
  | Some ?o =>
      let l := eval vm_compute in (started o) in
      match l with
      | [GoOutput ?a; GoOutput ?b] => pose (out := o); pose (first := a); pose (second := b)
      end
  end.
  assert (Hrun : Run (P := Guillotine.canvas) (in_order 2) 5 (Some tt)
                   (Some (small_canvas two_sizes 0 0 false)) = Some out)
    by (vm_compute; reflexivity).
  assert (H0 : started out !! 0%nat = Some (GoOutput first)) by reflexivity.
  assert (H1 : started out !! 1%nat = Some (GoOutput second)) by reflexivity.
  destruct (default_names_distinct (P := Guillotine.canvas) (in_order 2) 5 (Some tt)
              (small_canvas two_sizes 0 0 false) out 0 1 (GoOutput first) (GoOutput second)
              first second eq_refl Hrun H0 H1 (or_introl eq_refl) (or_introl eq_refl)
              ltac:(lia) ltac:(vm_compute; reflexivity) ltac:(vm_compute; reflexivity))
    as [Hi Hd].
  exists out, first, second. split; [exact Hrun|]. split; [reflexivity|].
  split; [exact Hi|]. exact (Hd eq_refl).
Defined.

Lemma pipeline_never_duplicates_witness :
  exists sprites,
    readAssetStream (decoding (in_order 2)) (mkAssetStreamer twins None) 0 1 = inr sprites /\
    map spr_Asset sprites ⊆+ twins.
Proof.
  let r := eval vm_compute in
    (readAssetStream (decoding (in_order 2)) (mkAssetStreamer twins None) 0 1) in
  match r with
  | inr ?l => pose (sprites := l)
  end.
  assert (Hr : readAssetStream (decoding (in_order 2)) (mkAssetStreamer twins None) 0 1
               = inr sprites) by (vm_compute; reflexivity).
  exists sprites. split; [exact Hr|].
  exact (proj2 (pipeline_never_duplicates _ _ _ _ _ Hr)).
Defined.

Lemma output_needs_clean_input_witness :
  exists q input,
    Some (small_canvas two_sizes 0 0 false) = Some q /\
    Input q = Some input /\ stream_err input = None.
Proof.
  let r := eval vm_compute in
    (Run (P := Guillotine.canvas) (in_order 2) 5 (Some tt)
       (Some (small_canvas two_sizes 0 0 false))) in
  match r with
  | Some ?o => pose (out := o)
  end.
  assert (Hrun : Run (P := Guillotine.canvas) (in_order 2) 5 (Some tt)
                   (Some (small_canvas two_sizes 0 0 false)) = Some out)
    by (vm_compute; reflexivity).
  destruct (output_needs_clean_input (P := Guillotine.canvas) (in_order 2) 5 (Some tt)
              (Some (small_canvas two_sizes 0 0 false)) out Hrun
              ltac:(discriminate))
    as (q & input & output & sprites0 & _ & Hp & _ & Hi & _ & Hse & _).
  exists q, input. split; [exact Hp|]. split; [exact Hi|exact Hse].
Defined.

Lemma success_packs_everything_witness :
  exists out input sprites0,
    Run (P := Guillotine.canvas) (in_order 2) 5 (Some tt)
      (Some (small_canvas two_sizes 0 0 false)) = Some out /\
    Input (small_canvas two_sizes 0 0 false) = Some input /\
    readAssetStream (decoding (in_order 2)) input 0 1 = inr sprites0 /\
    map path (placed (started out)) ≡ₚ map path sprites0.
Proof.
  let r := eval vm_compute in
    (Run (P := Guillotine.canvas) (in_order 2) 5 (Some tt)
       (Some (small_canvas two_sizes 0 0 false))) in
  match r with
  | Some ?o => pose (out := o)
  end.
  assert (Hrun : Run (P := Guillotine.canvas) (in_order 2) 5 (Some tt)
                   (Some (small_canvas two_sizes 0 0 false)) = Some out)
    by (vm_compute; reflexivity).
  destruct (success_packs_everything (P := Guillotine.canvas) path
              (Guillotine_pack_keeps path (fun _ _ _ => eq_refl))
              (in_order 2) 5 (Some tt) (small_canvas two_sizes 0 0 false) out
              Hrun eq_refl)
    as (input & sprites0 & Hi & Hr & Hp).
  exists out, input, sprites0. split; [exact Hrun|]. split; [exact Hi|].
  split; [exact Hr|exact Hp].
Defined.

Lemma returned_error_sources_witness :
  let p := small_canvas oversized 0 0 false in
  exists out err,
    Run (P := Guillotine.canvas) (in_order 2) 5 (Some tt) (Some p) = Some out /\
    returned out = Some err /\
    (err ∈ [errors_New "Context must not be nil"; errors_New "Params must not be nil";
            errors_New "Invalid 'Format' parameter"; errors_New "Input must not be nil";
            errors_New "Output must not be nil"] \/
     (exists q input, Some p = Some q /\ Input q = Some input /\
        readAssetStream (decoding (in_order 2)) input (Padding q)
          (Scale (applySensibleDefaults q)) = inl err) \/
     (exists q, Some p = Some q /\
        err ∈ [too_many_atlases (applySensibleDefaults q); ErrInputTooLarge;
               ErrOutOfRoom]) \/
     (exists q output t, Some p = Some q /\ Output q = Some output /\ t ∈ started out /\
        Some err ∈ sends output (Template (Format_ q)) t)).
Proof.
  intros p.
  let r := eval vm_compute in
    (Run (P := Guillotine.canvas) (in_order 2) 5 (Some tt) (Some p)) in
  match r with
  | Some ?o => pose (out := o)
  end.
  assert (Hrun : Run (P := Guillotine.canvas) (in_order 2) 5 (Some tt) (Some p) = Some out)
    by (vm_compute; reflexivity).
  exists out, ErrInputTooLarge. split; [exact Hrun|]. split; [reflexivity|].
  exact (returned_error_sources (P := Guillotine.canvas) (in_order 2) 5 (Some tt)
           (Some p) out ErrInputTooLarge Hrun eq_refl).
Defined.
